(** * swh.graph.pid: on-disk maps between persistent identifiers and node ids

    A shallow embedding of [src/swh/graph/pid.py]: the 22-byte PID codec
    ([str_to_bytes], [bytes_to_str]), the memory-mapped file of fixed-size
    records ([_OnDiskMap]), the forward index [PidToIntMap] (binary search)
    and the reverse index [IntToPidMap] (direct offset).

    Python values are modelled as follows: [bytes] and the [mmap] buffer are
    lists of [byte]; [int] is [Z]; [str] is [string]; a raised exception is
    the [Raise] case of [result]; the mutable mapping [self.mm] is threaded
    explicitly through the operations that write to it. *)

From Stdlib Require Import ZArith List String Ascii Lia Bool.
From Stdlib Require Import Strings.Byte Numbers.DecimalString.
Import ListNotations.
Local Open Scope Z_scope.

(** ** Exceptions and results *)

(** The exception classes the module can raise. [StructError] is
    [struct.error]; [OtherError] stands for a class of the identifier library
    that is none of the builtin ones. *)
Inductive exn : Set :=
| TypeError
| ValueError
| KeyError
| IndexError
| StructError
| OSError
| ZeroDivisionError
| NotImplementedError
| OtherError (cls : string).

Inductive result (A : Type) : Type :=
| Ok (a : A)
| Raise (e : exn).

Arguments Ok {A} a.
Arguments Raise {A} e.

Definition bind {A B : Type} (c : result A) (k : A -> result B) : result B :=
  match c with
  | Ok a => k a
  | Raise e => Raise e
  end.

Notation "x <- c ;; k" := (bind c (fun x => k))
  (at level 61, c at next level, right associativity).

Notation "' p <- c ;; k" := (bind c (fun x => match x with p => k end))
  (at level 61, p pattern, c at next level, right associativity).

Definition is_ok {A : Type} (c : result A) : bool :=
  match c with
  | Ok _ => true
  | Raise _ => false
  end.

(** ** Byte strings *)

Definition bytes : Type := list byte.

Definition len {A : Type} (l : list A) : Z := Z.of_nat (List.length l).

Definition byte_val (b : byte) : Z := Z.of_N (Byte.to_N b).

Definition byte_of_Z (z : Z) : byte :=
  match Byte.of_N (Z.to_N z) with
  | Some b => b
  | None => x00
  end.

(** Python's [<] on [bytes]: unsigned lexicographic order, a proper prefix
    being smaller. *)
Fixpoint bytes_ltb (a b : bytes) : bool :=
  match a, b with
  | [], [] => false
  | [], _ :: _ => true
  | _ :: _, [] => false
  | x :: a', y :: b' =>
      if byte_val x <? byte_val y then true
      else if byte_val y <? byte_val x then false
      else bytes_ltb a' b'
  end.

Definition bytes_lt (a b : bytes) : Prop := bytes_ltb a b = true.

(** ** The [struct] formats of the module *)

Definition PID_BIN_SIZE : Z := 22.
Definition INT_BIN_SIZE : Z := 8.

(** Format ['B']: an unsigned char; [struct.error] outside [0, 255]. *)
Definition pack_B (v : Z) : result byte :=
  if (0 <=? v) && (v <=? 255) then Ok (byte_of_Z v) else Raise StructError.

(** Format ['20s']: the argument truncated or padded with null bytes to 20
    bytes. *)
Definition pack_20s (s : bytes) : bytes := firstn 20 (s ++ repeat x00 20).

(** [struct.pack(PID_BIN_FMT, version, type, digest)], [PID_BIN_FMT = 'BB20s']. *)
Definition pack_PID (version type : Z) (digest : bytes) : result bytes :=
  v <- pack_B version ;;
  t <- pack_B type ;;
  Ok (v :: t :: pack_20s digest).

(** [struct.unpack(PID_BIN_FMT, b)]: the buffer must be exactly 22 bytes. *)
Definition unpack_PID (b : bytes) : result (Z * Z * bytes) :=
  match b with
  | v :: t :: d =>
      if len d =? 20 then Ok (byte_val v, byte_val t, d) else Raise StructError
  | _ => Raise StructError
  end.

(** The [k] low-order bytes of [n], most significant first. *)
Fixpoint be_bytes (k : nat) (n : Z) : bytes :=
  match k with
  | O => []
  | S k' => be_bytes k' (n / 256) ++ [byte_of_Z (n mod 256)]
  end.

Definition be_value (b : bytes) : Z :=
  fold_left (fun acc x => acc * 256 + byte_val x) b 0.

(** [struct.pack(INT_BIN_FMT, n)], [INT_BIN_FMT = '>q']: big endian, signed,
    8 bytes; [struct.error] outside the signed 64-bit range. *)
Definition pack_q (n : Z) : result bytes :=
  if (- 2 ^ 63 <=? n) && (n <? 2 ^ 63)
  then Ok (be_bytes 8 (n mod 2 ^ 64))
  else Raise StructError.

(** [struct.unpack(INT_BIN_FMT, b)[0]]. *)
Definition unpack_q (b : bytes) : result Z :=
  if len b =? INT_BIN_SIZE then
    let u := be_value b in
    Ok (if u <? 2 ^ 63 then u else u - 2 ^ 64)
  else Raise StructError.

(** ** Hexadecimal text *)

Definition hexdigit (n : Z) : ascii :=
  if n <? 10 then ascii_of_N (Z.to_N (48 + n)) else ascii_of_N (Z.to_N (87 + n)).

Definition hexval (c : ascii) : option Z :=
  let n := Z.of_N (N_of_ascii c) in
  if (48 <=? n) && (n <=? 57) then Some (n - 48)
  else if (97 <=? n) && (n <=? 102) then Some (n - 87)
  else if (65 <=? n) && (n <=? 70) then Some (n - 55)
  else None.

Definition is_space (c : ascii) : bool :=
  let n := Z.of_N (N_of_ascii c) in
  (n =? 32) || ((9 <=? n) && (n <=? 13)).

(** [bytes.fromhex(s)]: pairs of hexadecimal digits, ASCII whitespace allowed
    between the pairs; [ValueError] on anything else. *)
Fixpoint fromhex (s : string) : result bytes :=
  match s with
  | EmptyString => Ok []
  | String c s' =>
      if is_space c then fromhex s'
      else
        match hexval c, s' with
        | Some top, String c2 s'' =>
            match hexval c2 with
            | Some bot => r <- fromhex s'' ;; Ok (byte_of_Z (top * 16 + bot) :: r)
            | None => Raise ValueError
            end
        | _, _ => Raise ValueError
        end
  end.

(** [bytes.hex()]: two lowercase digits per byte. *)
Definition hex_of_byte (b : byte) : string :=
  String (hexdigit (byte_val b / 16))
    (String (hexdigit (byte_val b mod 16)) EmptyString).

Fixpoint hash_to_hex (d : bytes) : string :=
  match d with
  | [] => EmptyString
  | b :: d' => (hex_of_byte b ++ hash_to_hex d')%string
  end.

(** ** [PidType] *)

(** The enumeration [PidType]; the values drive the order of the records. *)
Inductive PidType : Set :=
| content
| directory
| origin
| release
| revision
| snapshot.

Definition PidType_value (t : PidType) : Z :=
  match t with
  | content => 1
  | directory => 2
  | origin => 3
  | release => 4
  | revision => 5
  | snapshot => 6
  end.

Definition PidType_name (t : PidType) : string :=
  match t with
  | content => "content"
  | directory => "directory"
  | origin => "origin"
  | release => "release"
  | revision => "revision"
  | snapshot => "snapshot"
  end.

Definition PidType_members : list PidType :=
  [content; directory; origin; release; revision; snapshot].

(** [PidType[name]]: lookup by member name, [KeyError] when there is none. *)
Definition PidType_by_name (name : string) : result PidType :=
  match find (fun t => String.eqb (PidType_name t) name) PidType_members with
  | Some t => Ok t
  | None => Raise KeyError
  end.

(** [PidType(value)]: lookup by value, [ValueError] when there is none. *)
Definition PidType_by_value (v : Z) : result PidType :=
  match find (fun t => PidType_value t =? v) PidType_members with
  | Some t => Ok t
  | None => Raise ValueError
  end.

(** ** The identifier library (collaborator) *)

(** Modelled from the spec: [PersistentId] of [swh.model.identifiers] is not
    part of the sources; it is the (scheme_version, object_type, digest)
    triple of the spec, with the fields [pid.py] reads: the scheme version as
    an integer, the object type by its name, the digest as hexadecimal text. *)
Record PersistentId : Set := mkPersistentId {
  scheme_version : Z;
  object_type : string;
  object_id : string
}.

(** Modelled from the spec: the textual-identifier parser and printer of
    [swh.model.identifiers], which is not part of the sources, for the
    [<scheme>:<version>:<type>:<hex-digest>] syntax. The theorems below hold
    for every parser and printer; this instance is the one the concrete
    examples run on. The text names an object type by a short name of three
    letters, and a [PersistentId] holds the name [PidType] has for it; the
    only scheme version is [PID_VERSION]; a text that is refused raises the
    library's own [ValidationError], which is not a [ValueError]. *)
Module Identifiers.

Definition PID_NAMESPACE : string := "swh".
Definition PID_VERSION : Z := 1.

Definition ValidationError : exn := OtherError "ValidationError".

(** The object types: the name held by a [PersistentId] and the short name
    written in the text. *)
Definition object_type_map : list (string * string) :=
  [("snapshot", "snp"); ("origin", "ori"); ("release", "rel");
   ("revision", "rev"); ("directory", "dir"); ("content", "cnt")]%string.

Definition short_name (object_type : string) : option string :=
  option_map snd
    (find (fun e => String.eqb (fst e) object_type) object_type_map).

Definition long_name (short : string) : option string :=
  option_map fst (find (fun e => String.eqb (snd e) short) object_type_map).

Fixpoint split_colon (s : string) : list string :=
  match s with
  | EmptyString => [EmptyString]
  | String c s' =>
      if Ascii.eqb c ":" then EmptyString :: split_colon s'
      else
        match split_colon s' with
        | [] => [String c EmptyString]
        | w :: ws => String c w :: ws
        end
  end.

Fixpoint all_chars (p : ascii -> bool) (s : string) : bool :=
  match s with
  | EmptyString => true
  | String c s' => p c && all_chars p s'
  end.

Definition is_lower_hex (c : ascii) : bool :=
  let n := Z.of_N (N_of_ascii c) in
  ((48 <=? n) && (n <=? 57)) || ((97 <=? n) && (n <=? 102)).

Definition version_text (v : Z) : string :=
  NilZero.string_of_uint (N.to_uint (Z.to_N v)).

Definition parse_persistent_identifier (s : string) : result PersistentId :=
  match split_colon s with
  | [ns; ver; ty; id] =>
      match long_name ty with
      | Some object_type =>
          if String.eqb ns PID_NAMESPACE
             && String.eqb ver (version_text PID_VERSION)
             && (Z.of_nat (String.length id) =? 40)
             && all_chars is_lower_hex id
          then Ok (mkPersistentId PID_VERSION object_type id)
          else Raise ValidationError
      | None => Raise ValidationError
      end
  | _ => Raise ValidationError
  end.

(** [str(pid)]. The library builds no [PersistentId] of a type it does not
    know; for such a name, which [bytes_to_str] never passes, the name is
    printed as it is. *)
Definition PersistentId_str (p : PersistentId) : string :=
  (PID_NAMESPACE ++ ":" ++ version_text (scheme_version p) ++ ":"
   ++ match short_name (object_type p) with
      | Some short => short
      | None => object_type p
      end
   ++ ":" ++ object_id p)%string.

End Identifiers.

(** ** The mapped buffer *)

(** A slice bound adjusted to a buffer of [n] bytes, as Python does for every
    slice: a negative bound counts from the end, and both are clamped. *)
Definition adjust (n i : Z) : Z :=
  if i <? 0 then Z.max (i + n) 0 else Z.min i n.

(** [mm[start:stop]]. *)
Definition mm_slice (mm : bytes) (start stop : Z) : bytes :=
  let a := adjust (len mm) start in
  let b := adjust (len mm) stop in
  firstn (Z.to_nat (b - a)) (skipn (Z.to_nat a) mm).

(** [mm[start:stop] = value]: a mapping cannot be resized, so the value must
    have the size of the slice; [IndexError] otherwise. *)
Definition mm_assign (mm : bytes) (start stop : Z) (value : bytes) : result bytes :=
  let a := adjust (len mm) start in
  let b := adjust (len mm) stop in
  if len value =? Z.max (b - a) 0 then
    Ok (firstn (Z.to_nat a) mm ++ value
        ++ skipn (Z.to_nat a + List.length value) mm)
  else Raise IndexError.

(** [os.truncate(fd, n)]: cut, or extend with null bytes. *)
Definition truncate (file : bytes) (n : Z) : bytes :=
  firstn (Z.to_nat n) (file ++ repeat x00 (Z.to_nat n)).

(** ** [_OnDiskMap] *)

Record _OnDiskMap : Type := mkOnDiskMap {
  record_size : Z;
  size : Z;
  length : Z;
  mm : bytes
}.

Definition set_mm (self : _OnDiskMap) (b : bytes) : _OnDiskMap :=
  mkOnDiskMap (record_size self) (size self) (length self) b.

(** [_OnDiskMap.__init__(record_size, fname, mode, length)]. [file] is the
    content of the file at [fname], [None] when there is no such file. The
    mapping of an empty file is refused by [mmap.mmap] with [ValueError]. *)
Definition _OnDiskMap_init (record_size : Z) (file : option bytes)
    (mode : string) (length : option Z) : result _OnDiskMap :=
  if negb (existsb (String.eqb mode) ["rb"; "wb"; "rb+"]%string)
  then Raise ValueError
  else
    let new_map := String.eqb mode "wb" in
    fd <- match file with
          | Some c => Ok c
          | None => if new_map then Ok [] else Raise OSError
          end ;;
    fd <- (if new_map then
             match length with
             | None => Raise ValueError
             | Some length =>
                 if length * record_size <? 0 then Raise OSError
                 else Ok (truncate fd (length * record_size))
             end
           else Ok fd) ;;
    let size := len fd in
    if record_size =? 0 then Raise ZeroDivisionError
    else
      let length := size / record_size in
      let remainder := size mod record_size in
      if negb (remainder =? 0) then Raise ValueError
      else if size =? 0 then Raise ValueError
      else Ok (mkOnDiskMap record_size size length fd).

(** [_OnDiskMap.__len__]. *)
Definition _OnDiskMap_len (self : _OnDiskMap) : Z := length self.

(** [_OnDiskMap.__delitem__]. *)
Definition _OnDiskMap_delitem (self : _OnDiskMap) (pos : Z) : result unit :=
  Raise NotImplementedError.

(** The slices of the buffer an operation reads, each as (start, stop). *)
Definition Access : Type := (Z * Z)%type.

(** A generator whose body is run on the positions [ps] in turn: the values
    it yields, and the exception that ended it, if any. *)
Fixpoint generate {A : Type} (body : Z -> result A) (ps : list Z)
    : list A * option exn :=
  match ps with
  | [] => ([], None)
  | p :: ps' =>
      match body p with
      | Raise e => ([], Some e)
      | Ok a => let '(l, r) := generate body ps' in (a :: l, r)
      end
  end.

(** [range(n)]. *)
Definition range (n : Z) : list Z := map Z.of_nat (seq 0 (Z.to_nat n)).

(** ** The PID codec *)

Section Pid.

(** The identifier library is an injected dependency: its parser
    [parse_persistent_identifier], the printer [str(pid)] and the scheme
    version a [PersistentId] gets when none is given. *)
Variable parse_persistent_identifier : string -> result PersistentId.
Variable PersistentId_str : PersistentId -> string.
Variable PID_VERSION : Z.

(** [str_to_bytes(pid)]. *)
Definition str_to_bytes (pid : string) : result bytes :=
  pid <- parse_persistent_identifier pid ;;
  t <- PidType_by_name (object_type pid) ;;
  digest <- fromhex (object_id pid) ;;
  pack_PID (scheme_version pid) (PidType_value t) digest.

(** [bytes_to_str(bytes)]: the unpacked [version] is not passed on to the
    [PersistentId], which gets the default scheme version. *)
Definition bytes_to_str (b : bytes) : result string :=
  '(version, type, bin_digest) <- unpack_PID b ;;
  t <- PidType_by_value type ;;
  Ok (PersistentId_str
        (mkPersistentId PID_VERSION (PidType_name t) (hash_to_hex bin_digest))).

(** ** [PidToIntMap] *)

Definition PidToIntMap_RECORD_SIZE : Z := PID_BIN_SIZE + INT_BIN_SIZE.

Definition PidToIntMap_init (file : option bytes) (mode : string)
    (length : option Z) : result _OnDiskMap :=
  _OnDiskMap_init PidToIntMap_RECORD_SIZE file mode length.

(** [PidToIntMap._get_bin_record(pos)]: both fields are sliced out of the
    buffer. *)
Definition PidToIntMap_get_bin_record (self : _OnDiskMap) (pos : Z)
    : bytes * bytes :=
  let rec_pos := pos * PidToIntMap_RECORD_SIZE in
  let int_pos := rec_pos + PID_BIN_SIZE in
  (mm_slice (mm self) rec_pos int_pos,
   mm_slice (mm self) int_pos (int_pos + INT_BIN_SIZE)).

(** The two slices [_get_bin_record(pos)] reads. *)
Definition PidToIntMap_get_bin_record_reads (pos : Z) : list Access :=
  let rec_pos := pos * PidToIntMap_RECORD_SIZE in
  let int_pos := rec_pos + PID_BIN_SIZE in
  [(rec_pos, int_pos); (int_pos, int_pos + INT_BIN_SIZE)].

(** [PidToIntMap._get_record(pos)]. *)
Definition PidToIntMap_get_record (self : _OnDiskMap) (pos : Z)
    : result (string * Z) :=
  let '(pid_bytes, int_bytes) := PidToIntMap_get_bin_record self pos in
  s <- bytes_to_str pid_bytes ;;
  n <- unpack_q int_bytes ;;
  Ok (s, n).

(** [PidToIntMap.write_record(f, pid, int)]: [f] is the content written to
    the stream so far. *)
Definition PidToIntMap_write_record (f : bytes) (pid : string) (int : Z)
    : result unit * bytes :=
  match str_to_bytes pid with
  | Raise e => (Raise e, f)
  | Ok k =>
      match pack_q int with
      | Raise e => (Raise e, f ++ k)
      | Ok v => (Ok tt, (f ++ k) ++ v)
      end
  end.

(** A builder that writes the records of a list one after the other. *)
Fixpoint PidToIntMap_write_records (f : bytes) (recs : list (string * Z))
    : result unit * bytes :=
  match recs with
  | [] => (Ok tt, f)
  | (pid, int) :: recs' =>
      match PidToIntMap_write_record f pid int with
      | (Raise e, f') => (Raise e, f')
      | (Ok _, f') => PidToIntMap_write_records f' recs'
      end
  end.

Definition logged {A : Type} (reads : list Access)
    (r : option (list Access * A)) : option (list Access * A) :=
  match r with
  | Some (t, a) => Some (reads ++ t, a)
  | None => None
  end.

(** The [while (min <= max)] loop of [_find], one iteration per unit of
    [fuel]; the result is the slices read and the outcome, [None] when the
    fuel is used up. *)
Fixpoint find_loop (fuel : nat) (self : _OnDiskMap) (target : bytes)
    (min max : Z) : option (list Access * result (Z * Z)) :=
  match fuel with
  | O => None
  | S fuel' =>
      if min <=? max then
        let mid := (min + max) / 2 in
        let '(pid, int) := PidToIntMap_get_bin_record self mid in
        let reads := PidToIntMap_get_bin_record_reads mid in
        if bytes_ltb pid target then
          logged reads (find_loop fuel' self target (mid + 1) max)
        else if bytes_ltb target pid then
          logged reads (find_loop fuel' self target min (mid - 1))
        else
          Some (reads, n <- unpack_q int ;; Ok (n, mid))
      else Some ([], Raise KeyError)
  end.

(** [PidToIntMap._find(pid_str)]; the argument is a [str] by its type. A
    [ValueError] of [str_to_bytes] is raised again as [ValueError], any
    other exception goes through. *)
Definition PidToIntMap_find_traced (self : _OnDiskMap) (pid_str : string)
    : option (list Access * result (Z * Z)) :=
  match str_to_bytes pid_str with
  | Raise ValueError => Some ([], Raise ValueError)
  | Raise e => Some ([], Raise e)
  | Ok target =>
      let min := 0 in
      let max := length self - 1 in
      find_loop (S (Z.to_nat (length self))) self target min max
  end.

Definition PidToIntMap_find (self : _OnDiskMap) (pid_str : string)
    : option (result (Z * Z)) :=
  option_map snd (PidToIntMap_find_traced self pid_str).

(** [PidToIntMap.__getitem__(pid_str)]. *)
Definition PidToIntMap_getitem (self : _OnDiskMap) (pid_str : string)
    : option (result Z) :=
  option_map (fun r => p <- r ;; Ok (fst p)) (PidToIntMap_find self pid_str).

(** [PidToIntMap.__setitem__(pid_str, int)]: the outcome and the map after
    the call. *)
Definition PidToIntMap_setitem (self : _OnDiskMap) (pid_str : string) (int : Z)
    : option (result unit * _OnDiskMap) :=
  match PidToIntMap_find self pid_str with
  | None => None
  | Some (Raise e) => Some (Raise e, self)
  | Some (Ok (_pid, pos)) =>
      let rec_pos := pos * PidToIntMap_RECORD_SIZE in
      let int_pos := rec_pos + PID_BIN_SIZE in
      Some
        match str_to_bytes pid_str with
        | Raise e => (Raise e, self)
        | Ok k =>
            match mm_assign (mm self) rec_pos int_pos k with
            | Raise e => (Raise e, self)
            | Ok mm1 =>
                match pack_q int with
                | Raise e => (Raise e, set_mm self mm1)
                | Ok v =>
                    match mm_assign mm1 int_pos (int_pos + INT_BIN_SIZE) v with
                    | Raise e => (Raise e, set_mm self mm1)
                    | Ok mm2 => (Ok tt, set_mm self mm2)
                    end
                end
            end
        end
  end.

(** [PidToIntMap.__iter__]. *)
Definition PidToIntMap_iter (self : _OnDiskMap)
    : list (string * Z) * option exn :=
  generate (PidToIntMap_get_record self) (range (length self)).

(** ** [IntToPidMap] *)

Definition IntToPidMap_RECORD_SIZE : Z := PID_BIN_SIZE.

Definition IntToPidMap_init (file : option bytes) (mode : string)
    (length : option Z) : result _OnDiskMap :=
  _OnDiskMap_init IntToPidMap_RECORD_SIZE file mode length.

(** [IntToPidMap._get_bin_record(pos)]. *)
Definition IntToPidMap_get_bin_record (self : _OnDiskMap) (pos : Z) : bytes :=
  let rec_pos := pos * IntToPidMap_RECORD_SIZE in
  mm_slice (mm self) rec_pos (rec_pos + IntToPidMap_RECORD_SIZE).

(** [IntToPidMap.write_record(f, pid)]. *)
Definition IntToPidMap_write_record (f : bytes) (pid : string)
    : result unit * bytes :=
  match str_to_bytes pid with
  | Raise e => (Raise e, f)
  | Ok k => (Ok tt, f ++ k)
  end.

(** The position [__getitem__] reads after its translation of a negative
    one. *)
Definition translate (self : _OnDiskMap) (pos : Z) : Z :=
  if pos <? 0 then _OnDiskMap_len self + pos else pos.

(** [IntToPidMap.__getitem__(pos)]. *)
Definition IntToPidMap_getitem (self : _OnDiskMap) (pos : Z) : result string :=
  let pos := translate self pos in
  if negb ((0 <=? pos) && (pos <? _OnDiskMap_len self)) then Raise IndexError
  else bytes_to_str (IntToPidMap_get_bin_record self pos).

(** [IntToPidMap.__setitem__(pos, pid)]: the outcome and the map after the
    call. *)
Definition IntToPidMap_setitem (self : _OnDiskMap) (pos : Z) (pid : string)
    : result unit * _OnDiskMap :=
  let rec_pos := pos * IntToPidMap_RECORD_SIZE in
  match str_to_bytes pid with
  | Raise e => (Raise e, self)
  | Ok k =>
      match mm_assign (mm self) rec_pos (rec_pos + IntToPidMap_RECORD_SIZE) k with
      | Raise e => (Raise e, self)
      | Ok mm' => (Ok tt, set_mm self mm')
      end
  end.

(** [IntToPidMap.__iter__]. *)
Definition IntToPidMap_iter (self : _OnDiskMap)
    : list (Z * string) * option exn :=
  generate (fun pos => s <- IntToPidMap_getitem self pos ;; Ok (pos, s))
    (range (length self)).

(** ** Well-formed maps *)

(** What [__init__] establishes and every operation keeps: the buffer has
    [size] bytes, which is [length] records of [R] bytes. *)
Definition well_formed (R : Z) (self : _OnDiskMap) : Prop :=
  record_size self = R /\ size self = len (mm self)
  /\ size self = length self * R /\ 0 <= length self.

(** The key and the value bytes of the record at a position of a forward
    index, and the record of a reverse index. *)
Definition key_at (self : _OnDiskMap) (pos : Z) : bytes :=
  fst (PidToIntMap_get_bin_record self pos).

Definition val_at (self : _OnDiskMap) (pos : Z) : bytes :=
  snd (PidToIntMap_get_bin_record self pos).

(** The records of a forward index are in strictly ascending key order. *)
Definition sorted_keys (self : _OnDiskMap) : Prop :=
  forall i j, 0 <= i -> i < j -> j < length self ->
    bytes_lt (key_at self i) (key_at self j).

(** A list of keys in strictly ascending order, each below the next. *)
Fixpoint ascending (ks : list bytes) : bool :=
  match ks with
  | [] => true
  | k :: ks' =>
      match ks' with
      | [] => true
      | k' :: _ => bytes_ltb k k' && ascending ks'
      end
  end.

(** The keys a builder writes for a list of records, in the order written. *)
Fixpoint encoded_keys (recs : list (string * Z)) : result (list bytes) :=
  match recs with
  | [] => Ok []
  | (pid, _) :: recs' =>
      k <- str_to_bytes pid ;;
      ks <- encoded_keys recs' ;;
      Ok (k :: ks)
  end.

(** The content of a forward index file whose records are the given
    (key bytes, value bytes) rows. *)
Fixpoint flat (rows : list (bytes * bytes)) : bytes :=
  match rows with
  | [] => []
  | (k, v) :: rows' => (k ++ v) ++ flat rows'
  end.

(** A written row holds the encodings of the record it was written for. *)
Definition row_of (rec : string * Z) (row : bytes * bytes) : Prop :=
  str_to_bytes (fst rec) = Ok (fst row) /\ pack_q (snd rec) = Ok (snd row).

(** The outcome of [_find] when the key of the record at [pos] is the
    target. *)
Definition found (self : _OnDiskMap) (pos : Z) : result (Z * Z) :=
  n <- unpack_q (val_at self pos) ;; Ok (n, pos).

(** A row has a key of 22 bytes and a value of 8. *)
Definition row_sized (row : bytes * bytes) : Prop :=
  len (fst row) = 22 /\ len (snd row) = 8.

Ltac sizes :=
  unfold PidToIntMap_RECORD_SIZE, IntToPidMap_RECORD_SIZE, PID_BIN_SIZE,
    INT_BIN_SIZE in *.

(** A builder that writes the identifiers of a list one after the other to
    a reverse index file. *)
Fixpoint IntToPidMap_write_records (f : bytes) (pids : list string)
    : result unit * bytes :=
  match pids with
  | [] => (Ok tt, f)
  | pid :: pids' =>
      match IntToPidMap_write_record f pid with
      | (Raise e, f') => (Raise e, f')
      | (Ok _, f') => IntToPidMap_write_records f' pids'
      end
  end.

(** The records of a forward index are in ascending key order, equal keys
    allowed. *)
Definition sorted_keys_weak (self : _OnDiskMap) : Prop :=
  forall i j, 0 <= i -> i < j -> j < length self ->
    bytes_ltb (key_at self j) (key_at self i) = false.

(** ** Bytes and their order *)

Lemma Ok_inj {A : Type} (a b : A) : Ok a = Ok b -> a = b.
Proof. congruence. Qed.

Lemma len_nonneg {A : Type} (l : list A) : 0 <= len l.
Proof. unfold len. lia. Qed.

Lemma len_app {A : Type} (l1 l2 : list A) : len (l1 ++ l2) = len l1 + len l2.
Proof. unfold len. rewrite length_app. lia. Qed.

Lemma byte_val_range (b : byte) : 0 <= byte_val b <= 255.
Proof.
  unfold byte_val. pose proof (Byte.to_N_bounded b). lia.
Qed.

Lemma byte_of_Z_val (b : byte) : byte_of_Z (byte_val b) = b.
Proof.
  unfold byte_of_Z, byte_val. rewrite N2Z.id, Byte.of_to_N. reflexivity.
Qed.

Lemma byte_val_of_Z (z : Z) : 0 <= z <= 255 -> byte_val (byte_of_Z z) = z.
Proof.
  intros Hz. unfold byte_of_Z, byte_val.
  pose proof (Byte.to_of_N_option_map (Z.to_N z)) as H.
  destruct (Byte.of_N (Z.to_N z)) as [b|] eqn:E; simpl in H.
  - destruct (N.leb (Z.to_N z) 255); [| discriminate].
    injection H as H. rewrite H. lia.
  - destruct (N.leb (Z.to_N z) 255) eqn:L; [discriminate |].
    apply N.leb_gt in L. lia.
Qed.

Lemma byte_val_inj (a b : byte) : byte_val a = byte_val b -> a = b.
Proof.
  intros H. rewrite <- (byte_of_Z_val a), <- (byte_of_Z_val b), H. reflexivity.
Qed.

Lemma bytes_ltb_irrefl (a : bytes) : bytes_ltb a a = false.
Proof.
  induction a as [| x a IH]; simpl; [reflexivity |].
  rewrite Z.ltb_irrefl. exact IH.
Qed.

Lemma bytes_ltb_trans (a b c : bytes) :
  bytes_ltb a b = true -> bytes_ltb b c = true -> bytes_ltb a c = true.
Proof.
  revert b c. induction a as [| x a IH]; intros [| y b] [| z c]; simpl;
    try congruence.
  destruct (byte_val x <? byte_val y) eqn:Exy;
    destruct (byte_val y <? byte_val x) eqn:Eyx;
    destruct (byte_val y <? byte_val z) eqn:Eyz;
    destruct (byte_val z <? byte_val y) eqn:Ezy;
    destruct (byte_val x <? byte_val z) eqn:Exz;
    destruct (byte_val z <? byte_val x) eqn:Ezx;
    try congruence; try lia; eauto.
Qed.

Lemma bytes_ltb_asym (a b : bytes) :
  bytes_ltb a b = true -> bytes_ltb b a = false.
Proof.
  intros H. destruct (bytes_ltb b a) eqn:E; [| reflexivity].
  pose proof (bytes_ltb_trans _ _ _ H E) as T.
  rewrite bytes_ltb_irrefl in T. discriminate.
Qed.

Lemma bytes_ltb_total (a b : bytes) :
  bytes_ltb a b = false -> bytes_ltb b a = false -> a = b.
Proof.
  revert b. induction a as [| x a IH]; intros [| y b]; simpl;
    try congruence.
  destruct (byte_val x <? byte_val y) eqn:Exy; [discriminate |].
  destruct (byte_val y <? byte_val x) eqn:Eyx; [discriminate |].
  intros H1 H2. f_equal; [apply byte_val_inj; lia | auto].
Qed.

Lemma ascending_cons (k k' : bytes) (ks : list bytes) :
  ascending (k :: k' :: ks) = true ->
  bytes_ltb k k' = true /\ ascending (k' :: ks) = true.
Proof.
  intros H. change (bytes_ltb k k' && ascending (k' :: ks) = true) in H.
  apply andb_true_iff in H. exact H.
Qed.

Lemma ascending_tail (k : bytes) (ks : list bytes) :
  ascending (k :: ks) = true -> ascending ks = true.
Proof.
  destruct ks as [| k' ks]; [reflexivity |].
  intros H. apply ascending_cons in H. apply H.
Qed.

Lemma ascending_head (ks : list bytes) :
  forall k, ascending (k :: ks) = true ->
  forall (n : nat) kn, nth_error ks n = Some kn -> bytes_lt k kn.
Proof.
  induction ks as [| k' ks IH]; intros k Hs n kn Hn.
  - destruct n; discriminate.
  - apply ascending_cons in Hs as [Hk Hs].
    destruct n as [| n]; simpl in Hn.
    + injection Hn as <-. exact Hk.
    + exact (bytes_ltb_trans _ _ _ Hk (IH k' Hs n kn Hn)).
Qed.

Lemma ascending_nth (ks : list bytes) :
  ascending ks = true ->
  forall (i j : nat) ki kj,
    (i < j)%nat -> nth_error ks i = Some ki -> nth_error ks j = Some kj ->
    bytes_lt ki kj.
Proof.
  induction ks as [| k ks IH]; intros Hs i j ki kj Hij Hi Hj.
  - destruct i; discriminate.
  - destruct j as [| j]; [lia |]. simpl in Hj.
    destruct i as [| i]; simpl in Hi.
    + injection Hi as <-. exact (ascending_head ks k Hs j kj Hj).
    + apply (IH (ascending_tail k ks Hs) i j); auto. lia.
Qed.

(** ** The [struct] formats are inverted by their unpacking *)

Lemma len_firstn_repeat (s : bytes) (n : nat) :
  List.length (firstn n (s ++ repeat x00 n)) = n.
Proof.
  rewrite length_firstn, length_app, repeat_length. lia.
Qed.

Lemma pack_20s_len (s : bytes) : len (pack_20s s) = 20.
Proof.
  unfold pack_20s, len. rewrite len_firstn_repeat. reflexivity.
Qed.

Lemma pack_20s_id (s : bytes) : len s = 20 -> pack_20s s = s.
Proof.
  unfold pack_20s, len. intros H.
  rewrite firstn_app. replace (20 - List.length s)%nat with 0%nat by lia.
  rewrite firstn_all2 by lia. simpl. apply app_nil_r.
Qed.

Lemma pack_PID_len (version type : Z) (digest b : bytes) :
  pack_PID version type digest = Ok b -> len b = PID_BIN_SIZE.
Proof.
  unfold pack_PID, pack_B, bind.
  destruct ((0 <=? version) && (version <=? 255)); [| discriminate].
  destruct ((0 <=? type) && (type <=? 255)); [| discriminate].
  intros H. injection H as <-.
  change (len (byte_of_Z version :: byte_of_Z type :: pack_20s digest))
    with (Z.of_nat (S (S (List.length (pack_20s digest))))).
  pose proof (pack_20s_len digest) as L. unfold len in L.
  unfold PID_BIN_SIZE. lia.
Qed.

Lemma unpack_pack_PID (version type : Z) (digest b : bytes) :
  pack_PID version type digest = Ok b ->
  unpack_PID b = Ok (version, type, pack_20s digest).
Proof.
  unfold pack_PID, pack_B, bind.
  destruct ((0 <=? version) && (version <=? 255)) eqn:Ev; [| discriminate].
  destruct ((0 <=? type) && (type <=? 255)) eqn:Et; [| discriminate].
  intros H. injection H as <-. unfold unpack_PID.
  rewrite pack_20s_len. simpl.
  rewrite !byte_val_of_Z by lia. reflexivity.
Qed.

Lemma be_bytes_length (k : nat) (n : Z) : List.length (be_bytes k n) = k.
Proof.
  revert n. induction k as [| k IH]; intros n; simpl; [reflexivity |].
  rewrite length_app, IH. simpl. lia.
Qed.

Lemma be_value_snoc (b : bytes) (x : byte) :
  be_value (b ++ [x]) = be_value b * 256 + byte_val x.
Proof.
  unfold be_value. rewrite fold_left_app. reflexivity.
Qed.

Lemma be_value_be_bytes (k : nat) (n : Z) :
  be_value (be_bytes k n) = n mod 256 ^ Z.of_nat k.
Proof.
  revert n. induction k as [| k IH]; intros n.
  - simpl. rewrite Z.mod_1_r. reflexivity.
  - simpl be_bytes. rewrite be_value_snoc, IH.
    rewrite byte_val_of_Z by (pose proof (Z.mod_pos_bound n 256); lia).
    rewrite Nat2Z.inj_succ, Z.pow_succ_r by lia.
    rewrite (Z.rem_mul_r n 256 (256 ^ Z.of_nat k)) by lia. lia.
Qed.

Lemma pack_q_len (n : Z) (b : bytes) : pack_q n = Ok b -> len b = INT_BIN_SIZE.
Proof.
  unfold pack_q. destruct ((- 2 ^ 63 <=? n) && (n <? 2 ^ 63)); [| discriminate].
  intros H. apply Ok_inj in H. subst b.
  unfold len. rewrite be_bytes_length. reflexivity.
Qed.

Lemma pack_q_raise (n : Z) (e : exn) : pack_q n = Raise e -> e = StructError.
Proof.
  unfold pack_q. destruct (_ && _); congruence.
Qed.

Lemma unpack_pack_q (n : Z) (b : bytes) : pack_q n = Ok b -> unpack_q b = Ok n.
Proof.
  intros H. pose proof (pack_q_len n b H) as L. revert H.
  unfold pack_q. destruct ((- 2 ^ 63 <=? n) && (n <? 2 ^ 63)) eqn:E; [| discriminate].
  intros H. apply Ok_inj in H. subst b. unfold unpack_q. rewrite L, Z.eqb_refl.
  rewrite be_value_be_bytes. f_equal.
  change (256 ^ Z.of_nat 8) with (2 ^ 64). rewrite Z.mod_mod by lia.
  apply andb_true_iff in E as [E1 E2].
  apply Z.leb_le in E1. apply Z.ltb_lt in E2.
  destruct (Z_lt_le_dec n 0) as [Hneg | Hpos].
  - assert (Hm : n mod 2 ^ 64 = n + 2 ^ 64)
      by (symmetry; apply Z.mod_unique with (q := -1); lia).
    rewrite Hm.
    destruct (n + 2 ^ 64 <? 2 ^ 63) eqn:C; [apply Z.ltb_lt in C; lia | lia].
  - rewrite Z.mod_small by lia.
    destruct (n <? 2 ^ 63) eqn:C; [reflexivity | apply Z.ltb_ge in C; lia].
Qed.

(** ** Hexadecimal text is read back *)

Lemma fromhex_hex_of_byte (b : byte) (s : string) :
  fromhex (hex_of_byte b ++ s) = (r <- fromhex s ;; Ok (b :: r)).
Proof.
  destruct b; reflexivity.
Qed.

Lemma fromhex_hash_to_hex (d : bytes) : fromhex (hash_to_hex d) = Ok d.
Proof.
  induction d as [| b d IH]; [reflexivity |].
  change (hash_to_hex (b :: d)) with (hex_of_byte b ++ hash_to_hex d)%string.
  rewrite fromhex_hex_of_byte, IH. reflexivity.
Qed.

(** ** [PidType] by name and by value *)

Lemma PidType_by_name_name (t : PidType) : PidType_by_name (PidType_name t) = Ok t.
Proof. destruct t; reflexivity. Qed.

Lemma PidType_by_value_value (t : PidType) :
  PidType_by_value (PidType_value t) = Ok t.
Proof. destruct t; reflexivity. Qed.

Lemma PidType_by_name_inv (name : string) (t : PidType) :
  PidType_by_name name = Ok t -> name = PidType_name t.
Proof.
  unfold PidType_by_name.
  destruct (find _ PidType_members) as [t' |] eqn:F; [| discriminate].
  intros H. injection H as <-. apply find_some in F as [_ F].
  apply String.eqb_eq in F. symmetry. exact F.
Qed.

(** ** Slices of the buffer *)

Lemma adjust_id (n i : Z) : 0 <= i <= n -> adjust n i = i.
Proof.
  intros H. unfold adjust. destruct (i <? 0) eqn:E; [apply Z.ltb_lt in E |]; lia.
Qed.

Lemma adjust_range (n i : Z) : 0 <= n -> 0 <= adjust n i <= n.
Proof.
  intros H. unfold adjust.
  destruct (i <? 0) eqn:E; [apply Z.ltb_lt in E | apply Z.ltb_ge in E]; lia.
Qed.

Lemma mm_slice_in (mm : bytes) (a b : Z) :
  0 <= a -> a <= b -> b <= len mm ->
  mm_slice mm a b = firstn (Z.to_nat (b - a)) (skipn (Z.to_nat a) mm).
Proof.
  intros Ha Hab Hb. unfold mm_slice. rewrite !adjust_id by lia. reflexivity.
Qed.

Lemma mm_slice_len (mm : bytes) (a b : Z) :
  0 <= a -> a <= b -> b <= len mm -> len (mm_slice mm a b) = b - a.
Proof.
  intros Ha Hab Hb. rewrite mm_slice_in by assumption. unfold len in *.
  rewrite length_firstn, length_skipn. lia.
Qed.

Lemma mm_assign_len (mm mm' : bytes) (a b : Z) (v : bytes) :
  mm_assign mm a b v = Ok mm' -> len mm' = len mm.
Proof.
  unfold mm_assign.
  pose proof (adjust_range (len mm) a (len_nonneg mm)) as Ra.
  pose proof (adjust_range (len mm) b (len_nonneg mm)) as Rb.
  destruct (len v =? _) eqn:E; [| discriminate].
  apply Z.eqb_eq in E. intros H. apply Ok_inj in H. subst mm'.
  unfold len in *. rewrite !length_app, length_firstn, length_skipn. lia.
Qed.

Lemma mm_assign_raise (mm : bytes) (a b : Z) (v : bytes) (e : exn) :
  mm_assign mm a b v = Raise e -> e = IndexError.
Proof.
  unfold mm_assign. destruct (len v =? _); congruence.
Qed.

Lemma mm_assign_in (mm : bytes) (a b : Z) (v : bytes) :
  0 <= a -> a <= b -> b <= len mm -> len v = b - a ->
  mm_assign mm a b v
  = Ok (firstn (Z.to_nat a) mm ++ v ++ skipn (Z.to_nat b) mm).
Proof.
  intros Ha Hab Hb Hv. unfold mm_assign. rewrite !adjust_id by lia.
  rewrite Hv, Z.max_l, Z.eqb_refl by lia.
  replace (Z.to_nat a + List.length v)%nat with (Z.to_nat b)
    by (unfold len in Hv; lia).
  reflexivity.
Qed.

Lemma mm_assign_out (mm : bytes) (a b : Z) (v : bytes) :
  len mm <= a -> a <= b -> 0 < len v -> mm_assign mm a b v = Raise IndexError.
Proof.
  intros Ha Hab Hv. unfold mm_assign, adjust. pose proof (len_nonneg mm).
  destruct (a <? 0) eqn:Ea; [apply Z.ltb_lt in Ea; lia |].
  destruct (b <? 0) eqn:Eb; [apply Z.ltb_lt in Eb; lia |].
  destruct (len v =? _) eqn:E; [apply Z.eqb_eq in E; lia | reflexivity].
Qed.

Lemma split3 {A : Type} (l : list A) (a b : nat) :
  (a <= b)%nat ->
  l = firstn a l ++ firstn (b - a) (skipn a l) ++ skipn b l.
Proof.
  intros H. rewrite <- (firstn_skipn a l) at 1. f_equal.
  rewrite <- (firstn_skipn (b - a) (skipn a l)) at 1. f_equal.
  rewrite skipn_skipn. f_equal. lia.
Qed.

Lemma slice_app_left {A : Type} (p r : list A) (c n : nat) :
  (c + n <= List.length p)%nat ->
  firstn n (skipn c (p ++ r)) = firstn n (skipn c p).
Proof.
  intros H. rewrite skipn_app, firstn_app, length_skipn.
  replace (n - (List.length p - c))%nat with 0%nat by lia.
  simpl. apply app_nil_r.
Qed.

Lemma slice_app_right {A : Type} (p r : list A) (c n : nat) :
  (List.length p <= c)%nat ->
  firstn n (skipn c (p ++ r)) = firstn n (skipn (c - List.length p) r).
Proof.
  intros H. rewrite skipn_app, skipn_all2 by lia. reflexivity.
Qed.

(** Assigning a slice leaves every slice that does not overlap it as it
    was. *)
Lemma mm_slice_assign_other (mm mm' : bytes) (a b c d : Z) (v : bytes) :
  0 <= a -> a <= b -> b <= len mm ->
  mm_assign mm a b v = Ok mm' ->
  0 <= c -> c <= d -> d <= len mm -> d <= a \/ b <= c ->
  mm_slice mm' c d = mm_slice mm c d.
Proof.
  intros Ha Hab Hb H Hc Hcd Hd Hdis.
  pose proof (mm_assign_len _ _ _ _ _ H) as L.
  assert (Hv : len v = b - a).
  { revert H. unfold mm_assign. rewrite !adjust_id by lia.
    destruct (len v =? _) eqn:E; [| discriminate]. apply Z.eqb_eq in E. lia. }
  rewrite mm_assign_in in H by assumption. apply Ok_inj in H.
  rewrite (mm_slice_in mm') by lia. rewrite (mm_slice_in mm) by lia.
  rewrite (split3 mm (Z.to_nat a) (Z.to_nat b)) at 1 by lia.
  subst mm'. clear L. unfold len in *.
  assert (Lp : List.length (firstn (Z.to_nat a) mm) = Z.to_nat a)
    by (rewrite length_firstn; lia).
  destruct Hdis as [Hl | Hr].
  - rewrite !slice_app_left by lia. reflexivity.
  - rewrite !slice_app_right by lia.
    rewrite !slice_app_right
      by (rewrite ?length_firstn, ?length_skipn; lia).
    f_equal. f_equal. rewrite !length_firstn, length_skipn. lia.
Qed.

Lemma mm_slice_assign_same (mm mm' : bytes) (a b : Z) (v : bytes) :
  0 <= a -> a <= b -> b <= len mm ->
  mm_assign mm a b v = Ok mm' -> mm_slice mm' a b = v.
Proof.
  intros Ha Hab Hb H.
  pose proof (mm_assign_len _ _ _ _ _ H) as L.
  assert (Hv : len v = b - a).
  { revert H. unfold mm_assign. rewrite !adjust_id by lia.
    destruct (len v =? _) eqn:E; [| discriminate]. apply Z.eqb_eq in E. lia. }
  rewrite mm_assign_in in H by assumption. apply Ok_inj in H.
  rewrite (mm_slice_in mm') by lia. subst mm'. unfold len in *.
  rewrite slice_app_right by (rewrite length_firstn; lia).
  rewrite length_firstn.
  replace (Z.to_nat a - Nat.min (Z.to_nat a) (List.length mm))%nat with 0%nat by lia.
  simpl. rewrite firstn_app.
  replace (Z.to_nat (b - a) - List.length v)%nat with 0%nat by lia.
  simpl. rewrite app_nil_r. apply firstn_all2. lia.
Qed.

(** Assigning to a slice the bytes it already holds changes nothing. *)
Lemma mm_assign_same (mm : bytes) (a b : Z) :
  0 <= a -> a <= b -> b <= len mm ->
  mm_assign mm a b (mm_slice mm a b) = Ok mm.
Proof.
  intros Ha Hab Hb.
  rewrite mm_assign_in by (try apply mm_slice_len; lia).
  rewrite mm_slice_in by lia.
  replace (Z.to_nat (b - a)) with (Z.to_nat b - Z.to_nat a)%nat by lia.
  symmetry. f_equal. apply split3. lia.
Qed.

(** ** Opening a map *)

Lemma init_inv (R : Z) (file : option bytes) (mode : string) (l : option Z)
    (m : _OnDiskMap) :
  _OnDiskMap_init R file mode l = Ok m ->
  R <> 0 /\ record_size m = R /\ size m = len (mm m)
  /\ size m mod R = 0 /\ length m = size m / R /\ 0 < size m
  /\ (mode <> "wb"%string -> file = Some (mm m)).
Proof.
  unfold _OnDiskMap_init.
  destruct (negb (existsb _ _)); [discriminate |].
  destruct (String.eqb mode "wb") eqn:Ewb.
  - apply String.eqb_eq in Ewb.
    set (fd0 := match file with Some c => c | None => [] end).
    assert (Efd : match file with Some c => Ok c | None => Ok [] end = Ok fd0)
      by (destruct file; reflexivity).
    rewrite Efd. unfold bind.
    destruct l as [l |]; [| discriminate].
    destruct (l * R <? 0); [discriminate |].
    destruct (R =? 0) eqn:ER; [discriminate |].
    destruct (negb (_ =? 0)) eqn:Erem; [discriminate |].
    destruct (len _ =? 0) eqn:Esz; [discriminate |].
    intros H; apply Ok_inj in H; subst m; simpl.
    apply negb_false_iff in Erem; apply Z.eqb_eq in Erem.
    apply Z.eqb_neq in ER; apply Z.eqb_neq in Esz.
    pose proof (len_nonneg (truncate fd0 (l * R))).
    repeat split; try assumption; try lia. congruence.
  - apply String.eqb_neq in Ewb.
    destruct file as [c |]; unfold bind; [| discriminate].
    destruct (R =? 0) eqn:ER; [discriminate |].
    destruct (negb (_ =? 0)) eqn:Erem; [discriminate |].
    destruct (len _ =? 0) eqn:Esz; [discriminate |].
    intros H; apply Ok_inj in H; subst m; simpl.
    apply negb_false_iff in Erem; apply Z.eqb_eq in Erem.
    apply Z.eqb_neq in ER; apply Z.eqb_neq in Esz.
    pose proof (len_nonneg c).
    repeat split; try assumption; try lia.
Qed.

Lemma init_well_formed (R : Z) (file : option bytes) (mode : string)
    (l : option Z) (m : _OnDiskMap) :
  0 < R -> _OnDiskMap_init R file mode l = Ok m ->
  well_formed R m /\ 0 < length m.
Proof.
  intros HR H. apply init_inv in H as (_ & H1 & H2 & H3 & H4 & H5 & _).
  assert (E : size m = length m * R).
  { rewrite H4. pose proof (Z.div_mod (size m) R). lia. }
  unfold well_formed. repeat split; try assumption; nia.
Qed.

Lemma init_existing (R : Z) (c : bytes) (mode : string) (l : option Z) :
  mode = "rb"%string \/ mode = "rb+"%string ->
  R <> 0 ->
  _OnDiskMap_init R (Some c) mode l =
    if negb (len c mod R =? 0) then Raise ValueError
    else if len c =? 0 then Raise ValueError
    else Ok (mkOnDiskMap R (len c) (len c / R) c).
Proof.
  intros Hm HR. unfold _OnDiskMap_init.
  apply Z.eqb_neq in HR.
  destruct Hm as [-> | ->]; simpl; rewrite HR; reflexivity.
Qed.

(** ** The binary search *)

Lemma get_bin_record_eta (self : _OnDiskMap) (pos : Z) :
  PidToIntMap_get_bin_record self pos = (key_at self pos, val_at self pos).
Proof.
  unfold key_at, val_at. destruct (PidToIntMap_get_bin_record self pos).
  reflexivity.
Qed.

Lemma find_loop_step (fuel : nat) (self : _OnDiskMap) (target : bytes)
    (min max : Z) :
  find_loop (S fuel) self target min max =
    if min <=? max then
      let mid := (min + max) / 2 in
      if bytes_ltb (key_at self mid) target then
        logged (PidToIntMap_get_bin_record_reads mid)
          (find_loop fuel self target (mid + 1) max)
      else if bytes_ltb target (key_at self mid) then
        logged (PidToIntMap_get_bin_record_reads mid)
          (find_loop fuel self target min (mid - 1))
      else Some (PidToIntMap_get_bin_record_reads mid, found self mid)
    else Some ([], Raise KeyError).
Proof.
  cbn [find_loop]. destruct (min <=? max); [| reflexivity].
  rewrite get_bin_record_eta. reflexivity.
Qed.

Lemma mid_bounds (min max : Z) :
  min <= max -> min <= (min + max) / 2 <= max.
Proof.
  intros H. split.
  - apply Z.div_le_lower_bound; lia.
  - apply Z.div_le_upper_bound; lia.
Qed.

(** With enough fuel the loop ends, either with [KeyError] or at a record
    whose key is the target: whatever the order of the records. *)
Lemma find_loop_sound (self : _OnDiskMap) (target : bytes) (fuel : nat) :
  forall min max,
    Z.max 0 (max - min + 1) < Z.of_nat fuel ->
    exists tr r,
      find_loop fuel self target min max = Some (tr, r)
      /\ (r = Raise KeyError
          \/ exists pos, min <= pos <= max /\ key_at self pos = target
                         /\ r = found self pos).
Proof.
  induction fuel as [| fuel IH]; intros min max Hf; [lia |].
  rewrite find_loop_step.
  destruct (min <=? max) eqn:E.
  - apply Z.leb_le in E. pose proof (mid_bounds min max E) as Hm.
    cbv zeta. set (mid := (min + max) / 2) in *.
    destruct (bytes_ltb (key_at self mid) target) eqn:L1.
    + destruct (IH (mid + 1) max) as (tr & r & Hr & Hc); [lia |].
      rewrite Hr. simpl. eexists _, _. split; [reflexivity |].
      destruct Hc as [-> | (pos & Hp & Hk & ->)]; [left; reflexivity |].
      right. exists pos. repeat split; auto; lia.
    + destruct (bytes_ltb target (key_at self mid)) eqn:L2.
      * destruct (IH min (mid - 1)) as (tr & r & Hr & Hc); [lia |].
        rewrite Hr. simpl. eexists _, _. split; [reflexivity |].
        destruct Hc as [-> | (pos & Hp & Hk & ->)]; [left; reflexivity |].
        right. exists pos. repeat split; auto; lia.
      * eexists _, _. split; [reflexivity |].
        right. exists mid. repeat split; try lia.
        apply bytes_ltb_total; assumption.
  - eexists _, _. split; [reflexivity | left; reflexivity].
Qed.

Lemma find_loop_absent (self : _OnDiskMap) (target : bytes) (fuel : nat)
    (min max : Z) :
  Z.max 0 (max - min + 1) < Z.of_nat fuel ->
  (forall pos, min <= pos <= max -> key_at self pos <> target) ->
  exists tr, find_loop fuel self target min max = Some (tr, Raise KeyError).
Proof.
  intros Hf Habs.
  destruct (find_loop_sound self target fuel min max Hf) as (tr & r & Hr & Hc).
  exists tr. rewrite Hr.
  destruct Hc as [-> | (pos & Hp & Hk & _)]; [reflexivity |].
  exfalso. exact (Habs pos Hp Hk).
Qed.

(** On records in ascending key order the loop finds a key that is there. *)
Lemma find_loop_present (self : _OnDiskMap) (target : bytes) :
  sorted_keys self ->
  forall (fuel : nat) min max i,
    Z.max 0 (max - min + 1) < Z.of_nat fuel ->
    0 <= min -> max < length self ->
    min <= i <= max -> key_at self i = target ->
    exists tr, find_loop fuel self target min max = Some (tr, found self i).
Proof.
  intros Hs. induction fuel as [| fuel IH]; intros min max i Hf Hmin Hmax Hi Hk;
    [lia |].
  rewrite find_loop_step.
  assert (E : min <= max) by lia.
  pose proof (mid_bounds min max E) as Hm.
  apply Z.leb_le in E. rewrite E. cbv zeta.
  set (mid := (min + max) / 2) in *.
  assert (Hlt : forall a b, 0 <= a -> a < b -> b < length self ->
                  bytes_ltb (key_at self a) (key_at self b) = true)
    by (intros; apply Hs; assumption).
  destruct (bytes_ltb (key_at self mid) target) eqn:L1.
  - assert (mid < i).
    { destruct (Z_lt_le_dec mid i) as [| Hle]; [assumption | exfalso].
      destruct (Z.eq_dec i mid) as [-> | Hne].
      - rewrite Hk, bytes_ltb_irrefl in L1. discriminate.
      - assert (Hc := Hlt i mid ltac:(lia) ltac:(lia) ltac:(lia)).
        rewrite Hk in Hc. apply bytes_ltb_asym in Hc. congruence. }
    destruct (IH (mid + 1) max i) as (tr & Hr); try lia; try assumption.
    rewrite Hr. simpl. eexists. reflexivity.
  - destruct (bytes_ltb target (key_at self mid)) eqn:L2.
    + assert (i < mid).
      { destruct (Z_lt_le_dec i mid) as [| Hle]; [assumption | exfalso].
        destruct (Z.eq_dec i mid) as [-> | Hne].
        - rewrite Hk, bytes_ltb_irrefl in L2. discriminate.
        - assert (Hc := Hlt mid i ltac:(lia) ltac:(lia) ltac:(lia)).
          rewrite Hk in Hc. congruence. }
      destruct (IH min (mid - 1) i) as (tr & Hr); try lia; try assumption.
      rewrite Hr. simpl. eexists. reflexivity.
    + assert (i = mid).
      { pose proof (bytes_ltb_total _ _ L1 L2) as Heq.
        destruct (Z.lt_total i mid) as [Hl | [He | Hg]]; [| assumption |];
          exfalso.
        - assert (Hc := Hlt i mid ltac:(lia) ltac:(lia) ltac:(lia)).
          rewrite Hk, Heq, bytes_ltb_irrefl in Hc. discriminate.
        - assert (Hc := Hlt mid i ltac:(lia) ltac:(lia) ltac:(lia)).
          rewrite Hk, Heq, bytes_ltb_irrefl in Hc. discriminate. }
      subst i. eexists. reflexivity.
Qed.

(** The loop reads the same slices and ends the same way on two buffers
    that agree on every key and on the value of every record whose key is
    the target. *)
Lemma find_loop_values_irrelevant (m1 m2 : _OnDiskMap) (target : bytes)
    (L : Z) :
  (forall i, 0 <= i < L -> key_at m1 i = key_at m2 i) ->
  (forall i, 0 <= i < L -> key_at m1 i = target -> val_at m1 i = val_at m2 i) ->
  forall (fuel : nat) min max,
    0 <= min -> max < L ->
    find_loop fuel m1 target min max = find_loop fuel m2 target min max.
Proof.
  intros Hkeys Hvals. induction fuel as [| fuel IH]; intros min max Hmin Hmax;
    [reflexivity |].
  rewrite !find_loop_step.
  destruct (min <=? max) eqn:E; [| reflexivity].
  apply Z.leb_le in E. pose proof (mid_bounds min max E) as Hm.
  cbv zeta. set (mid := (min + max) / 2) in *.
  rewrite <- (Hkeys mid) by lia.
  destruct (bytes_ltb (key_at m1 mid) target) eqn:L1;
    [rewrite IH by lia; reflexivity |].
  destruct (bytes_ltb target (key_at m1 mid)) eqn:L2;
    [rewrite IH by lia; reflexivity |].
  unfold found. rewrite (Hvals mid) by (try apply bytes_ltb_total; auto; lia).
  reflexivity.
Qed.

(** ** Records of a well-formed forward index *)

Lemma key_at_slice (self : _OnDiskMap) (pos : Z) :
  key_at self pos = mm_slice (mm self) (pos * 30) (pos * 30 + 22).
Proof. reflexivity. Qed.

Lemma val_at_slice (self : _OnDiskMap) (pos : Z) :
  val_at self pos = mm_slice (mm self) (pos * 30 + 22) (pos * 30 + 22 + 8).
Proof. reflexivity. Qed.

Lemma val_at_len (self : _OnDiskMap) (pos : Z) :
  well_formed PidToIntMap_RECORD_SIZE self -> 0 <= pos < length self ->
  len (val_at self pos) = INT_BIN_SIZE.
Proof.
  intros (_ & Hs & Hl & _) Hp. rewrite val_at_slice. sizes.
  rewrite mm_slice_len; lia.
Qed.

Lemma found_ok (self : _OnDiskMap) (pos : Z) :
  well_formed PidToIntMap_RECORD_SIZE self -> 0 <= pos < length self ->
  exists n, found self pos = Ok (n, pos) /\ unpack_q (val_at self pos) = Ok n.
Proof.
  intros Hw Hp. unfold found, unpack_q.
  rewrite (val_at_len self pos Hw Hp), Z.eqb_refl. simpl.
  eexists. split; reflexivity.
Qed.

(** [_find] always returns: with the exception of [str_to_bytes], with
    [KeyError], or at a record whose key is the encoded identifier. *)
Lemma find_traced_spec (self : _OnDiskMap) (pid_str : string) :
  exists tr r,
    PidToIntMap_find_traced self pid_str = Some (tr, r)
    /\ match str_to_bytes pid_str with
       | Raise e => r = Raise e /\ tr = []
       | Ok target =>
           r = Raise KeyError
           \/ exists pos, 0 <= pos < length self /\ key_at self pos = target
                          /\ r = found self pos
       end.
Proof.
  unfold PidToIntMap_find_traced.
  destruct (str_to_bytes pid_str) as [target | e].
  - cbv zeta.
    destruct (find_loop_sound self target (S (Z.to_nat (length self))) 0
                (length self - 1)) as (tr & r & Hr & Hc); [lia |].
    exists tr, r. split; [exact Hr |].
    destruct Hc as [-> | (pos & Hp & Hk & ->)]; [left; reflexivity |].
    right. exists pos. repeat split; auto; lia.
  - exists [], (Raise e). split; [destruct e; reflexivity | split; reflexivity].
Qed.

Lemma find_spec (self : _OnDiskMap) (pid_str : string) :
  exists r,
    PidToIntMap_find self pid_str = Some r
    /\ match str_to_bytes pid_str with
       | Raise e => r = Raise e
       | Ok target =>
           r = Raise KeyError
           \/ exists pos, 0 <= pos < length self /\ key_at self pos = target
                          /\ r = found self pos
       end.
Proof.
  destruct (find_traced_spec self pid_str) as (tr & r & Hr & Hc).
  exists r. unfold PidToIntMap_find. rewrite Hr. split; [reflexivity |].
  destruct (str_to_bytes pid_str); [exact Hc | apply Hc].
Qed.

Lemma find_absent (self : _OnDiskMap) (pid_str : string) (target : bytes) :
  str_to_bytes pid_str = Ok target ->
  (forall pos, 0 <= pos < length self -> key_at self pos <> target) ->
  PidToIntMap_find self pid_str = Some (Raise KeyError).
Proof.
  intros Ht Habs. destruct (find_spec self pid_str) as (r & Hr & Hc).
  rewrite Ht in Hc. rewrite Hr.
  destruct Hc as [-> | (pos & Hp & Hk & _)]; [reflexivity |].
  exfalso. exact (Habs pos Hp Hk).
Qed.

Lemma find_present (self : _OnDiskMap) (pid_str : string) (pos : Z) :
  sorted_keys self -> 0 <= pos < length self ->
  str_to_bytes pid_str = Ok (key_at self pos) ->
  PidToIntMap_find self pid_str = Some (found self pos).
Proof.
  intros Hs Hp Ht. unfold PidToIntMap_find, PidToIntMap_find_traced.
  rewrite Ht. cbv zeta.
  destruct (find_loop_present self (key_at self pos) Hs
              (S (Z.to_nat (length self))) 0 (length self - 1) pos)
    as (tr & Hr); try lia; try reflexivity.
  rewrite Hr. reflexivity.
Qed.

Lemma set_mm_same (self : _OnDiskMap) : set_mm self (mm self) = self.
Proof. destruct self. reflexivity. Qed.

(** What [__setitem__] does to a well-formed map: it raises and leaves the
    map as it was, or it returns after it has assigned the 8 value bytes of
    one record whose key is the encoded identifier. *)
Lemma setitem_cases (self : _OnDiskMap) (pid_str : string) (int : Z) :
  well_formed PidToIntMap_RECORD_SIZE self ->
  exists r self',
    PidToIntMap_setitem self pid_str int = Some (r, self')
    /\ ((self' = self
         /\ (r = Raise KeyError
             \/ (exists e, str_to_bytes pid_str = Raise e /\ r = Raise e)
             \/ (r = Raise StructError /\ pack_q int = Raise StructError
                 /\ exists pos, 0 <= pos < length self
                      /\ str_to_bytes pid_str = Ok (key_at self pos))))
        \/ exists pos v mm',
             0 <= pos < length self
             /\ str_to_bytes pid_str = Ok (key_at self pos)
             /\ pack_q int = Ok v
             /\ mm_assign (mm self) (pos * 30 + 22) (pos * 30 + 22 + 8) v = Ok mm'
             /\ r = Ok tt /\ self' = set_mm self mm').
Proof.
  intros Hw. unfold PidToIntMap_setitem.
  destruct (find_spec self pid_str) as (r & Hr & Hc). rewrite Hr.
  destruct (str_to_bytes pid_str) as [target | e] eqn:Ht.
  - destruct Hc as [-> | (pos & Hp & Hk & ->)].
    + eexists _, _. split; [reflexivity |]. left. auto.
    + destruct (found_ok self pos Hw Hp) as (n & Hn & _). rewrite Hn.
      destruct Hw as (HR & Hs & Hl & H0).
      assert (Hsame : mm_assign (mm self) (pos * PidToIntMap_RECORD_SIZE)
                        (pos * PidToIntMap_RECORD_SIZE + PID_BIN_SIZE) target
                      = Ok (mm self)).
      { rewrite <- Hk, key_at_slice. sizes. apply mm_assign_same; lia. }
      rewrite Hsame.
      destruct (pack_q int) as [v |] eqn:Hv.
      * pose proof (pack_q_len _ _ Hv) as Lv.
        assert (Hin : mm_assign (mm self)
                  (pos * PidToIntMap_RECORD_SIZE + PID_BIN_SIZE)
                  (pos * PidToIntMap_RECORD_SIZE + PID_BIN_SIZE + INT_BIN_SIZE) v
                = Ok (firstn (Z.to_nat (pos * 30 + 22)) (mm self) ++ v
                      ++ skipn (Z.to_nat (pos * 30 + 22 + 8)) (mm self))).
        { sizes. apply mm_assign_in; lia. }
        rewrite Hin. eexists _, _. split; [reflexivity |]. right.
        exists pos, v. eexists. subst target. sizes.
        repeat split; try lia; try reflexivity. exact Hin.
      * assert (e = StructError).
        { revert Hv. unfold pack_q. destruct (_ && _); congruence. }
        subst e. rewrite set_mm_same.
        eexists _, _. split; [reflexivity |]. left. split; [reflexivity |].
        right. right. repeat split. exists pos. subst target. auto.
  - subst r. eexists _, _. split; [reflexivity |]. left.
    split; [reflexivity |]. right. left. exists e. auto.
Qed.

(** ** Files written record by record *)

Lemma str_to_bytes_len (pid : string) (k : bytes) :
  str_to_bytes pid = Ok k -> len k = PID_BIN_SIZE.
Proof.
  unfold str_to_bytes, bind.
  destruct (parse_persistent_identifier pid) as [p |]; [| discriminate].
  destruct (PidType_by_name (object_type p)) as [t |]; [| discriminate].
  destruct (fromhex (object_id p)) as [d |]; [| discriminate].
  apply pack_PID_len.
Qed.

Lemma write_records_rows (recs : list (string * Z)) :
  forall f f',
    PidToIntMap_write_records f recs = (Ok tt, f') ->
    exists rows, f' = f ++ flat rows /\ Forall2 row_of recs rows.
Proof.
  induction recs as [| [pid n] recs IH]; intros f f' H.
  - simpl in H. injection H as H. exists []. split; [| constructor].
    simpl. rewrite app_nil_r. symmetry. exact H.
  - cbn [PidToIntMap_write_records] in H. unfold PidToIntMap_write_record in H.
    destruct (str_to_bytes pid) as [k |] eqn:Hk; [| discriminate].
    destruct (pack_q n) as [v |] eqn:Hv; [| discriminate].
    apply IH in H as (rows & -> & HF).
    exists ((k, v) :: rows). split.
    + simpl. rewrite <- !app_assoc. reflexivity.
    + constructor; [split; assumption | exact HF].
Qed.

Lemma encoded_keys_rows (recs : list (string * Z)) :
  forall rows ks,
    Forall2 row_of recs rows -> encoded_keys recs = Ok ks ->
    ks = map fst rows.
Proof.
  induction recs as [| [pid n] recs IH]; intros rows ks HF Hk.
  - inversion HF; subst. simpl in Hk. apply Ok_inj in Hk. subst ks. reflexivity.
  - inversion HF as [| rec row recs' rows' [Hr _] HF']; subst.
    cbn [encoded_keys] in Hk. simpl in Hr. rewrite Hr in Hk. simpl in Hk.
    destruct (encoded_keys recs) as [ks' |]; [| discriminate].
    simpl in Hk. apply Ok_inj in Hk. subst ks.
    simpl. f_equal. apply IH; auto.
Qed.

Lemma Forall2_nth_error_l {A B : Type} (R : A -> B -> Prop) (l1 : list A) :
  forall (l2 : list B) (i : nat) (a : A),
    Forall2 R l1 l2 -> nth_error l1 i = Some a ->
    exists b, nth_error l2 i = Some b /\ R a b.
Proof.
  induction l1 as [| x l1 IH]; intros l2 i a HF Hi.
  - destruct i; discriminate.
  - inversion HF as [| ? y ? l2' Hxy HF']; subst.
    destruct i as [| i]; simpl in Hi.
    + injection Hi as <-. exists y. auto.
    + apply (IH l2' i a HF' Hi).
Qed.

Lemma Forall2_nth_error_r {A B : Type} (R : A -> B -> Prop) (l1 : list A) :
  forall (l2 : list B) (i : nat) (b : B),
    Forall2 R l1 l2 -> nth_error l2 i = Some b ->
    exists a, nth_error l1 i = Some a /\ R a b.
Proof.
  induction l1 as [| x l1 IH]; intros l2 i b HF Hi.
  - inversion HF; subst. destruct i; discriminate.
  - inversion HF as [| ? y ? l2' Hxy HF']; subst.
    destruct i as [| i]; simpl in Hi.
    + injection Hi as <-. exists x. auto.
    + apply (IH l2' i b HF' Hi).
Qed.

Lemma row_of_sized (rec : string * Z) (row : bytes * bytes) :
  row_of rec row -> row_sized row.
Proof.
  intros [Hk Hv]. split.
  - apply str_to_bytes_len in Hk. exact Hk.
  - apply pack_q_len in Hv. exact Hv.
Qed.

Lemma flat_len (rows : list (bytes * bytes)) :
  Forall row_sized rows -> len (flat rows) = 30 * len rows.
Proof.
  induction 1 as [| [k v] rows [Hk Hv] HF IH]; [reflexivity |].
  simpl in Hk, Hv. cbn [flat]. rewrite !len_app, IH, Hk, Hv.
  unfold len. simpl List.length. lia.
Qed.

Lemma mm_slice_app_left (p rest : bytes) (a b : Z) :
  0 <= a -> a <= b -> b <= len p ->
  mm_slice (p ++ rest) a b = mm_slice p a b.
Proof.
  intros Ha Hab Hb. pose proof (len_nonneg rest).
  rewrite !mm_slice_in by (rewrite ?len_app; lia).
  apply slice_app_left. unfold len in *. lia.
Qed.

Lemma mm_slice_app_shift (p rest : bytes) (a b : Z) :
  0 <= a -> a <= b -> b <= len rest ->
  mm_slice (p ++ rest) (len p + a) (len p + b) = mm_slice rest a b.
Proof.
  intros Ha Hab Hb. pose proof (len_nonneg p).
  rewrite !mm_slice_in by (rewrite ?len_app; lia).
  rewrite slice_app_right by (unfold len; lia).
  unfold len. f_equal; [lia |]. f_equal. lia.
Qed.

Lemma mm_slice_all (p : bytes) : mm_slice p 0 (len p) = p.
Proof.
  rewrite mm_slice_in by (pose proof (len_nonneg p); lia).
  simpl. apply firstn_all2. unfold len. lia.
Qed.

(** The record at position [i] of a written file is its [i]-th row. *)
Lemma flat_record (rows : list (bytes * bytes)) :
  Forall row_sized rows ->
  forall (i : nat) row,
    nth_error rows i = Some row ->
    mm_slice (flat rows) (Z.of_nat i * 30) (Z.of_nat i * 30 + 22) = fst row
    /\ mm_slice (flat rows) (Z.of_nat i * 30 + 22) (Z.of_nat i * 30 + 22 + 8)
       = snd row.
Proof.
  induction 1 as [| [k v] rows [Hk Hv] HF IH]; intros i row Hi.
  - destruct i; discriminate.
  - simpl in Hk, Hv. pose proof (flat_len rows HF) as Lf.
    pose proof (len_nonneg rows) as Ln.
    assert (L30 : len (k ++ v) = 30) by (rewrite len_app; lia).
    destruct i as [| i]; simpl in Hi.
    + injection Hi as <-. cbn [flat fst snd]. split.
      * rewrite mm_slice_app_left by lia.
        rewrite mm_slice_app_left by lia.
        rewrite <- Hk. apply mm_slice_all.
      * rewrite mm_slice_app_left by lia.
        replace (Z.of_nat 0 * 30 + 22) with (len k + 0) by lia.
        replace (len k + 0 + 8) with (len k + len v) by lia.
        rewrite mm_slice_app_shift by lia. apply mm_slice_all.
    + assert (Hlt : (i < List.length rows)%nat)
        by (apply nth_error_Some; congruence).
      destruct (IH i row Hi) as [IHk IHv].
      cbn [flat]. split.
      * replace (Z.of_nat (S i) * 30) with (len (k ++ v) + Z.of_nat i * 30) by lia.
        replace (len (k ++ v) + Z.of_nat i * 30 + 22)
          with (len (k ++ v) + (Z.of_nat i * 30 + 22)) by lia.
        rewrite mm_slice_app_shift by (unfold len in *; lia). exact IHk.
      * replace (Z.of_nat (S i) * 30 + 22)
          with (len (k ++ v) + (Z.of_nat i * 30 + 22)) by lia.
        replace (len (k ++ v) + (Z.of_nat i * 30 + 22) + 8)
          with (len (k ++ v) + (Z.of_nat i * 30 + 22 + 8)) by lia.
        rewrite mm_slice_app_shift by (unfold len in *; lia). exact IHv.
Qed.

Lemma rows_sized (recs : list (string * Z)) (rows : list (bytes * bytes)) :
  Forall2 row_of recs rows -> Forall row_sized rows.
Proof.
  induction 1 as [| rec row recs rows Hr HF IH]; constructor;
    [exact (row_of_sized rec row Hr) | exact IH].
Qed.

Lemma written_record (rows : list (bytes * bytes)) (self : _OnDiskMap) :
  Forall row_sized rows -> mm self = flat rows ->
  forall (i : nat) row,
    nth_error rows i = Some row ->
    key_at self (Z.of_nat i) = fst row /\ val_at self (Z.of_nat i) = snd row.
Proof.
  intros HF Hmm i row Hi. rewrite key_at_slice, val_at_slice, Hmm.
  exact (flat_record rows HF i row Hi).
Qed.

Lemma nth_error_pos {A : Type} (l : list A) (pos : Z) :
  0 <= pos < len l -> exists a, nth_error l (Z.to_nat pos) = Some a.
Proof.
  intros H. destruct (nth_error l (Z.to_nat pos)) as [a |] eqn:E; [eauto |].
  apply nth_error_None in E. unfold len in H. lia.
Qed.

(** ** The codec *)

(** The decoding does not depend on the version byte. *)
Lemma bytes_to_str_version (v1 v2 t : byte) (d : bytes) :
  bytes_to_str (v1 :: t :: d) = bytes_to_str (v2 :: t :: d).
Proof.
  unfold bytes_to_str, unpack_PID. destruct (len d =? 20); reflexivity.
Qed.

(** The round trip on an identifier of the default scheme version: one that
    the parser accepts, that the printer gives back, and whose digest is 20
    bytes in the printer's lowercase hexadecimal form. *)
Lemma bytes_to_str_str_to_bytes (x : string) (p : PersistentId) (d b : bytes) :
  parse_persistent_identifier x = Ok p ->
  PersistentId_str p = x ->
  scheme_version p = PID_VERSION ->
  object_id p = hash_to_hex d -> len d = 20 ->
  str_to_bytes x = Ok b ->
  bytes_to_str b = Ok x.
Proof.
  intros Hp Hs Hv Hd Hl. unfold str_to_bytes. rewrite Hp. unfold bind at 1.
  destruct (PidType_by_name (object_type p)) as [t |] eqn:Ht; [| discriminate].
  unfold bind at 1. rewrite Hd, fromhex_hash_to_hex. unfold bind at 1.
  intros Hb. unfold bytes_to_str. rewrite (unpack_pack_PID _ _ _ _ Hb).
  unfold bind at 1. rewrite PidType_by_value_value. unfold bind.
  rewrite pack_20s_id by exact Hl.
  rewrite <- (PidType_by_name_inv _ _ Ht), <- Hv, <- Hd.
  destruct p. simpl. simpl in Hs. rewrite Hs. reflexivity.
Qed.


(** ** Lookup in a forward index *)

(** C2. A forward index file written record by record, in strictly
    ascending order of the 22-byte key encodings, and then opened: the
    lookup of every identifier that was written returns the node id written
    for it, and the lookup of every identifier whose encoding was not
    written raises [KeyError]. *)
Theorem lookup_sorted_index (recs : list (string * Z)) (ks : list bytes)
    (f : bytes) (m : _OnDiskMap) :
  PidToIntMap_write_records [] recs = (Ok tt, f) ->
  encoded_keys recs = Ok ks ->
  ascending ks = true ->
  PidToIntMap_init (Some f) "rb" None = Ok m ->
  (forall pid n, In (pid, n) recs -> PidToIntMap_getitem m pid = Some (Ok n))
  /\ (forall pid target,
        str_to_bytes pid = Ok target -> ~ In target ks ->
        PidToIntMap_getitem m pid = Some (Raise KeyError)).
Proof.
  intros Hw Hk Hasc Hopen.
  apply write_records_rows in Hw as (rows & Hf & HF). simpl in Hf.
  pose proof (rows_sized recs rows HF) as Hsz.
  pose proof (encoded_keys_rows recs rows ks HF Hk) as Hks.
  pose proof (flat_len rows Hsz) as Lf. rewrite <- Hf in Lf.
  apply init_inv in Hopen as (_ & _ & Hs & _ & Hl & _ & Hfile).
  assert (Hmm : mm m = flat rows).
  { specialize (Hfile ltac:(discriminate)). congruence. }
  assert (Hlen : length m = len rows).
  { rewrite Hl, Hs, Hmm, <- Hf, Lf, Z.mul_comm. apply Z.div_mul. sizes. lia. }
  assert (Hrec : forall pos, 0 <= pos < length m ->
            exists row, nth_error rows (Z.to_nat pos) = Some row
                        /\ key_at m pos = fst row /\ val_at m pos = snd row).
  { intros pos Hp. destruct (nth_error_pos rows pos) as (row & Hrow); [lia |].
    exists row. split; [exact Hrow |].
    rewrite <- (Z2Nat.id pos) by lia.
    exact (written_record rows m Hsz Hmm _ row Hrow). }
  assert (Hsorted : sorted_keys m).
  { intros i j Hi Hij Hj.
    destruct (Hrec i) as (ri & Hri & Hki & _); [lia |].
    destruct (Hrec j) as (rj & Hrj & Hkj & _); [lia |].
    rewrite Hki, Hkj.
    apply (ascending_nth ks Hasc (Z.to_nat i) (Z.to_nat j)); [lia | |];
      subst ks; apply map_nth_error; assumption. }
  split.
  - intros pid n Hin. apply In_nth_error in Hin as (i & Hi).
    destruct (Forall2_nth_error_l _ _ _ _ _ HF Hi) as (row & Hrow & Hpk & Hpv).
    simpl in Hpk, Hpv.
    assert (Hlt : (i < List.length rows)%nat)
      by (apply nth_error_Some; congruence).
    destruct (written_record rows m Hsz Hmm i row Hrow) as [Hki Hvi].
    unfold PidToIntMap_getitem.
    rewrite (find_present m pid (Z.of_nat i) Hsorted)
      by (try rewrite Hki; try assumption; unfold len in *; lia).
    unfold found. rewrite Hvi, (unpack_pack_q _ _ Hpv). reflexivity.
  - intros pid target Ht Hnot. unfold PidToIntMap_getitem.
    rewrite (find_absent m pid target Ht); [reflexivity |].
    intros pos Hp Hkey. apply Hnot.
    destruct (Hrec pos Hp) as (row & Hrow & Hkp & _).
    subst ks. rewrite <- Hkey, Hkp.
    apply in_map. eapply nth_error_In. exact Hrow.
Qed.

(** ** Update of a forward index *)

Lemma set_mm_fields (self : _OnDiskMap) (b : bytes) :
  length (set_mm self b) = length self /\ size (set_mm self b) = size self
  /\ record_size (set_mm self b) = record_size self /\ mm (set_mm self b) = b.
Proof. repeat split. Qed.

(** The records of a forward index after the value of the record at [pos]
    was assigned. *)
Lemma assign_value_frame (self : _OnDiskMap) (pos : Z) (v mm' : bytes) :
  well_formed PidToIntMap_RECORD_SIZE self -> 0 <= pos < length self ->
  mm_assign (mm self) (pos * 30 + 22) (pos * 30 + 22 + 8) v = Ok mm' ->
  (forall i, 0 <= i < length self ->
     key_at (set_mm self mm') i = key_at self i)
  /\ (forall i, 0 <= i < length self -> i <> pos ->
        val_at (set_mm self mm') i = val_at self i)
  /\ val_at (set_mm self mm') pos = v.
Proof.
  intros (_ & Hs & Hl & _) Hp Ha. sizes.
  split; [| split].
  - intros i Hi. rewrite !key_at_slice. simpl mm.
    apply (mm_slice_assign_other (mm self) mm' (pos * 30 + 22)
             (pos * 30 + 22 + 8) _ _ v); try exact Ha; lia.
  - intros i Hi Hne. rewrite !val_at_slice. simpl mm.
    apply (mm_slice_assign_other (mm self) mm' (pos * 30 + 22)
             (pos * 30 + 22 + 8) _ _ v); try exact Ha; lia.
  - rewrite val_at_slice. simpl mm.
    apply (mm_slice_assign_same (mm self) mm' (pos * 30 + 22)
             (pos * 30 + 22 + 8) v); try exact Ha; lia.
Qed.

(** C3. [__setitem__] on a forward index, for an identifier that encodes
    to [target]: the call returns; the number of records, the size and the
    keys are as before; the value bytes of every record with another key,
    and of every record but one, are as before; when no record has the key
    the call raises [KeyError] and the map is as before; and when the
    records are in ascending key order, a record has the key and the node
    id fits 64 bits, the call succeeds and a lookup then returns the new
    node id. *)
Theorem update_frame (m : _OnDiskMap) (pid : string) (int : Z) (target : bytes) :
  well_formed PidToIntMap_RECORD_SIZE m ->
  str_to_bytes pid = Ok target ->
  exists r m',
    PidToIntMap_setitem m pid int = Some (r, m')
    /\ length m' = length m /\ size m' = size m /\ len (mm m') = len (mm m)
    /\ (forall i, 0 <= i < length m -> key_at m' i = key_at m i)
    /\ (forall i, 0 <= i < length m -> key_at m i <> target ->
          val_at m' i = val_at m i)
    /\ (exists pos, forall i, 0 <= i < length m -> i <> pos ->
          val_at m' i = val_at m i)
    /\ ((forall i, 0 <= i < length m -> key_at m i <> target) ->
        r = Raise KeyError /\ m' = m)
    /\ (sorted_keys m ->
        (exists i, 0 <= i < length m /\ key_at m i = target) ->
        - 2 ^ 63 <= int < 2 ^ 63 ->
        r = Ok tt /\ PidToIntMap_getitem m' pid = Some (Ok int)).
Proof.
  intros Hw Ht.
  destruct (setitem_cases m pid int Hw) as (r & m' & Hset & Hc).
  exists r, m'. split; [exact Hset |].
  destruct Hc as [[-> Hr] | (pos & v & mm' & Hp & Hk & Hv & Ha & -> & ->)].
  - do 3 (split; [reflexivity |]).
    do 2 (split; [intros; reflexivity |]).
    split; [exists 0; intros; reflexivity |].
    split.
    + intros Habs.
      destruct Hr as [-> | [(e & He & _) | (_ & _ & pos & Hp & Hk)]];
        [split; reflexivity | congruence |].
      exfalso. apply (Habs pos Hp). congruence.
    + intros Hs (i & Hi & Hki) Hint. exfalso.
      destruct Hr as [-> | [(e & He & _) | (_ & Hq & _)]].
      * revert Hset. unfold PidToIntMap_setitem.
        rewrite (find_present m pid i Hs Hi) by congruence.
        destruct (found_ok m i Hw Hi) as (n & -> & _).
        rewrite Ht.
        destruct (mm_assign _ _ _ target) eqn:E1;
          [| apply mm_assign_raise in E1; subst; discriminate].
        destruct (pack_q int) eqn:E2;
          [| apply pack_q_raise in E2; subst; discriminate].
        match goal with
        | |- context [mm_assign ?x ?y ?z ?w] =>
            destruct (mm_assign x y z w) eqn:E3
        end; [discriminate | apply mm_assign_raise in E3; subst; discriminate].
      * congruence.
      * revert Hq. unfold pack_q.
        destruct (- 2 ^ 63 <=? int) eqn:E1; [| apply Z.leb_gt in E1; lia].
        destruct (int <? 2 ^ 63) eqn:E2; [discriminate | apply Z.ltb_ge in E2; lia].
  - destruct (assign_value_frame m pos v mm' Hw Hp Ha) as (Fk & Fv & Fp).
    assert (Hkey : key_at m pos = target) by congruence.
    do 2 (split; [reflexivity |]).
    split; [exact (mm_assign_len _ _ _ _ _ Ha) |].
    split; [exact Fk |].
    split; [intros i Hi Hne; apply Fv; [exact Hi | congruence] |].
    split; [exists pos; exact Fv |].
    split.
    + intros Habs. exfalso. exact (Habs pos Hp Hkey).
    + intros Hs _ _. split; [reflexivity |]. unfold PidToIntMap_getitem.
      assert (Hs' : sorted_keys (set_mm m mm')).
      { intros i j Hi Hij Hj. simpl in Hj.
        rewrite !Fk by lia. apply Hs; assumption. }
      rewrite (find_present (set_mm m mm') pid pos Hs')
        by (try rewrite Fk; try assumption; simpl; lia).
      unfold found. rewrite Fp, (unpack_pack_q _ _ Hv). reflexivity.
Qed.

(** ** Errors of the lookup *)

Lemma getitem_raise (m : _OnDiskMap) (x : string) (e : exn) :
  str_to_bytes x = Raise e -> PidToIntMap_getitem m x = Some (Raise e).
Proof.
  intros H. unfold PidToIntMap_getitem, PidToIntMap_find, PidToIntMap_find_traced.
  rewrite H. destruct e; reflexivity.
Qed.

Lemma getitem_absent (m : _OnDiskMap) (x : string) (target : bytes) :
  str_to_bytes x = Ok target ->
  (forall pos, 0 <= pos < length m -> key_at m pos <> target) ->
  PidToIntMap_getitem m x = Some (Raise KeyError).
Proof.
  intros Ht Habs. unfold PidToIntMap_getitem.
  rewrite (find_absent m x target Ht Habs). reflexivity.
Qed.

(** C5. The exception of a lookup, by what fails. Whatever exception the
    identifier parser raises on a text, the encoding raises it and so does
    the lookup: [_find] catches [ValueError] only, and raises [ValueError]
    again. So a text that the parser refuses with an exception of another
    class makes the lookup raise that exception, not [ValueError]. An
    identifier that is encoded to a key that no record holds makes the
    lookup raise [KeyError]. *)
Theorem lookup_error_classes (m : _OnDiskMap) (x : string) :
  (forall e, parse_persistent_identifier x = Raise e ->
     str_to_bytes x = Raise e
     /\ PidToIntMap_getitem m x = Some (Raise e)
     /\ (e <> ValueError ->
         PidToIntMap_getitem m x <> Some (Raise ValueError)))
  /\ (forall e, str_to_bytes x = Raise e ->
        PidToIntMap_getitem m x = Some (Raise e))
  /\ (forall target, str_to_bytes x = Ok target ->
        (forall pos, 0 <= pos < length m -> key_at m pos <> target) ->
        PidToIntMap_getitem m x = Some (Raise KeyError)).
Proof.
  split; [| split].
  - intros e He.
    assert (Hs : str_to_bytes x = Raise e)
      by (unfold str_to_bytes; rewrite He; reflexivity).
    split; [exact Hs |].
    rewrite (getitem_raise m x e Hs). split; [reflexivity |].
    intros Hne H. apply Hne. congruence.
  - apply getitem_raise.
  - apply getitem_absent.
Qed.

(** ** The slices a lookup reads *)

(** The slices a run of the loop reads are the two slices of each record
    it probes, one record after the other. *)
Lemma find_loop_trace (self : _OnDiskMap) (target : bytes) (fuel : nat) :
  forall min max tr r,
    find_loop fuel self target min max = Some (tr, r) ->
    exists probes,
      tr = flat_map PidToIntMap_get_bin_record_reads probes
      /\ Forall (fun pos => min <= pos <= max) probes.
Proof.
  induction fuel as [| fuel IH]; intros min max tr r H; [discriminate |].
  rewrite find_loop_step in H.
  destruct (min <=? max) eqn:E.
  - apply Z.leb_le in E. pose proof (mid_bounds min max E) as Hm.
    cbv zeta in H. set (mid := (min + max) / 2) in *.
    destruct (bytes_ltb (key_at self mid) target).
    + destruct (find_loop fuel self target (mid + 1) max) as [[t a] |] eqn:Hr;
        [| discriminate].
      simpl in H. injection H as <- <-.
      destruct (IH _ _ _ _ Hr) as (probes & -> & HF).
      exists (mid :: probes). split; [reflexivity |].
      constructor; [lia |]. revert HF. apply Forall_impl. intros; lia.
    + destruct (bytes_ltb target (key_at self mid)).
      * destruct (find_loop fuel self target min (mid - 1)) as [[t a] |] eqn:Hr;
          [| discriminate].
        simpl in H. injection H as <- <-.
        destruct (IH _ _ _ _ Hr) as (probes & -> & HF).
        exists (mid :: probes). split; [reflexivity |].
        constructor; [lia |]. revert HF. apply Forall_impl. intros; lia.
      * injection H as <- <-. exists [mid].
        split; [reflexivity |].
        constructor; [lia | constructor].
  - injection H as <- <-. exists []. split; [reflexivity | constructor].
Qed.

(** C6 (as amended). A lookup slices the key and the value of every record
    it probes, and decodes the value at a match only: the slices it reads
    are the two slices of each probed record, and on two forward indices of
    the same length that hold the same keys, and the same value in every
    record whose key is the encoded identifier, a lookup reads the same
    slices, in the same order, and ends the same way; the value bytes of
    the other records have no part in it. *)
Theorem lookup_ignores_other_values (m1 m2 : _OnDiskMap) (pid : string)
    (target : bytes) :
  length m1 = length m2 ->
  str_to_bytes pid = Ok target ->
  (forall i, 0 <= i < length m1 -> key_at m1 i = key_at m2 i) ->
  (forall i, 0 <= i < length m1 -> key_at m1 i = target ->
     val_at m1 i = val_at m2 i) ->
  PidToIntMap_find_traced m1 pid = PidToIntMap_find_traced m2 pid
  /\ PidToIntMap_getitem m1 pid = PidToIntMap_getitem m2 pid
  /\ (forall tr r, PidToIntMap_find_traced m1 pid = Some (tr, r) ->
        exists probes,
          tr = flat_map PidToIntMap_get_bin_record_reads probes
          /\ Forall (fun pos => 0 <= pos < length m1) probes).
Proof.
  intros Hl Ht Hk Hv.
  assert (E : PidToIntMap_find_traced m1 pid = PidToIntMap_find_traced m2 pid).
  { unfold PidToIntMap_find_traced. rewrite Ht. cbv zeta. rewrite <- Hl.
    apply (find_loop_values_irrelevant m1 m2 target (length m1) Hk Hv); lia. }
  split; [exact E |]. split.
  - unfold PidToIntMap_getitem, PidToIntMap_find. rewrite E. reflexivity.
  - intros tr r. unfold PidToIntMap_find_traced. rewrite Ht. cbv zeta.
    intros H. apply find_loop_trace in H as (probes & -> & HF).
    exists probes. split; [reflexivity |].
    revert HF. apply Forall_impl. intros; lia.
Qed.

(** ** The reverse index *)

Lemma bytes_to_str_not_IndexError (b : bytes) :
  bytes_to_str b <> Raise IndexError.
Proof.
  unfold bytes_to_str, unpack_PID.
  destruct b as [| v [| t d]]; try discriminate.
  destruct (len d =? 20); [| discriminate].
  unfold bind at 1. unfold PidType_by_value.
  destruct (find _ PidType_members); discriminate.
Qed.

(** C4. A reverse index of [L > 0] records: position [L - 1] and position
    [-1] give the same result, and so do [0] and [-L]; a negative position
    is translated to [L + pos]; the call raises [IndexError] exactly when
    the translated position is outside of [0, L), as for [-(L + 1)], and
    decodes the record at the translated position otherwise. *)
Theorem reverse_negative_addressing (m : _OnDiskMap) :
  0 < length m ->
  IntToPidMap_getitem m (length m - 1) = IntToPidMap_getitem m (- 1)
  /\ IntToPidMap_getitem m 0 = IntToPidMap_getitem m (- length m)
  /\ IntToPidMap_getitem m (- (length m + 1)) = Raise IndexError
  /\ (forall pos, pos < 0 -> translate m pos = length m + pos)
  /\ (forall pos,
        IntToPidMap_getitem m pos = Raise IndexError
        <-> ~ (0 <= translate m pos < length m))
  /\ (forall pos,
        0 <= translate m pos < length m ->
        IntToPidMap_getitem m pos
        = bytes_to_str (IntToPidMap_get_bin_record m (translate m pos))).
Proof.
  intros HL.
  assert (Hget : forall pos,
            IntToPidMap_getitem m pos =
            if (0 <=? translate m pos) && (translate m pos <? length m)
            then bytes_to_str (IntToPidMap_get_bin_record m (translate m pos))
            else Raise IndexError).
  { intros pos. unfold IntToPidMap_getitem, _OnDiskMap_len. cbv zeta.
    destruct ((0 <=? translate m pos) && (translate m pos <? length m));
      reflexivity. }
  assert (Htr : forall pos, pos < 0 -> translate m pos = length m + pos).
  { intros pos Hp. unfold translate, _OnDiskMap_len.
    destruct (pos <? 0) eqn:E; [reflexivity | apply Z.ltb_ge in E; lia]. }
  assert (Htr0 : forall pos, 0 <= pos -> translate m pos = pos).
  { intros pos Hp. unfold translate.
    destruct (pos <? 0) eqn:E; [apply Z.ltb_lt in E; lia | reflexivity]. }
  split; [| split; [| split; [| split; [exact Htr | split]]]].
  - rewrite !Hget, (Htr (- 1)), (Htr0 (length m - 1)) by lia.
    replace (length m + -1) with (length m - 1) by lia. reflexivity.
  - rewrite !Hget, (Htr (- length m)), (Htr0 0) by lia.
    replace (length m + - length m) with 0 by lia. reflexivity.
  - rewrite Hget, (Htr (- (length m + 1))) by lia.
    destruct (0 <=? length m + - (length m + 1)) eqn:E;
      [apply Z.leb_le in E; lia | reflexivity].
  - intros pos. rewrite Hget.
    destruct (0 <=? translate m pos) eqn:E1;
      destruct (translate m pos <? length m) eqn:E2; simpl;
      try apply Z.leb_le in E1; try apply Z.leb_gt in E1;
      try apply Z.ltb_lt in E2; try apply Z.ltb_ge in E2;
      split; intros H; try reflexivity; try lia.
    exfalso. exact (bytes_to_str_not_IndexError _ H).
  - intros pos [H1 H2]. rewrite Hget.
    apply Z.leb_le in H1. apply Z.ltb_lt in H2. rewrite H1, H2. reflexivity.
Qed.

(** C9. [IntToPidMap.__setitem__] at a position [pos >= L] of a reverse
    index of [L] records raises and leaves the map as it was, with
    [IndexError] of the slice assignment when the identifier encodes; and
    at no position, in range or not, does the call change the number of
    records, the size or the length of the buffer. *)
Theorem reverse_set_out_of_range (m : _OnDiskMap) (pos : Z) (pid : string) :
  well_formed IntToPidMap_RECORD_SIZE m ->
  length m <= pos ->
  (exists e, IntToPidMap_setitem m pos pid = (Raise e, m))
  /\ (forall k, str_to_bytes pid = Ok k ->
        IntToPidMap_setitem m pos pid = (Raise IndexError, m))
  /\ (forall pos' pid',
        length (snd (IntToPidMap_setitem m pos' pid')) = length m
        /\ size (snd (IntToPidMap_setitem m pos' pid')) = size m
        /\ len (mm (snd (IntToPidMap_setitem m pos' pid'))) = len (mm m)).
Proof.
  intros (_ & Hs & Hl & H0) Hp.
  assert (Hout : forall k, str_to_bytes pid = Ok k ->
            IntToPidMap_setitem m pos pid = (Raise IndexError, m)).
  { intros k Hk. unfold IntToPidMap_setitem. rewrite Hk. cbv zeta.
    pose proof (str_to_bytes_len _ _ Hk) as Lk. sizes.
    rewrite mm_assign_out by lia. reflexivity. }
  split; [| split; [exact Hout |]].
  - destruct (str_to_bytes pid) as [k | e] eqn:Hk.
    + exists IndexError. apply (Hout k). reflexivity.
    + exists e. unfold IntToPidMap_setitem. rewrite Hk. reflexivity.
  - intros pos' pid'. unfold IntToPidMap_setitem. cbv zeta.
    destruct (str_to_bytes pid') as [k |]; [| repeat split].
    destruct (mm_assign _ _ _ k) as [mm' |] eqn:Ha; [| repeat split].
    simpl. repeat split. exact (mm_assign_len _ _ _ _ _ Ha).
Qed.

(** ** Opening validates the size, and nothing else *)

(** C8. Opening a file as a map of records of [R <> 0] bytes: when it
    succeeds, the size is a multiple of [R], the number of records is the
    size divided by [R], and the buffer is the file (unless the mode
    creates it); an existing file whose size is not a multiple of [R] is
    refused with [ValueError]; and an existing, non-empty file whose size is
    a multiple of [R] is opened. *)
Theorem open_checks_size (R : Z) (file : option bytes) (mode : string)
    (l : option Z) :
  R <> 0 ->
  (forall m, _OnDiskMap_init R file mode l = Ok m ->
     size m = len (mm m) /\ size m mod R = 0 /\ length m = size m / R
     /\ (mode <> "wb"%string -> file = Some (mm m)))
  /\ (forall c, file = Some c -> mode = "rb"%string \/ mode = "rb+"%string ->
        len c mod R <> 0 ->
        _OnDiskMap_init R file mode l = Raise ValueError)
  /\ (forall c, file = Some c -> mode = "rb"%string \/ mode = "rb+"%string ->
        len c mod R = 0 -> 0 < len c ->
        _OnDiskMap_init R file mode l
        = Ok (mkOnDiskMap R (len c) (len c / R) c)).
Proof.
  intros HR. split; [| split].
  - intros m H. apply init_inv in H as (_ & _ & H1 & H2 & H3 & _ & H4). auto.
  - intros c -> Hm Hrem. rewrite (init_existing R c mode l Hm HR).
    apply Z.eqb_neq in Hrem. rewrite Hrem. reflexivity.
  - intros c -> Hm Hrem Hpos. rewrite (init_existing R c mode l Hm HR).
    apply Z.eqb_eq in Hrem. rewrite Hrem. simpl.
    destruct (len c =? 0) eqn:E; [apply Z.eqb_eq in E; lia | reflexivity].
Qed.

(** C7. The order of the records is not checked when a forward index is
    opened: every non-empty file whose size is a multiple of 30 is opened,
    whatever its records are. And for two identifiers [a] and [b] whose
    keys are in the order [ka < kb], the file written in the order [b], [a]
    is opened without an error, is not in ascending key order, holds the
    key of [a] in its second record with the node id 1, and the lookup of
    [a] raises [KeyError]. *)
Theorem unsorted_index_misleads (a b : string) (ka kb : bytes) :
  str_to_bytes a = Ok ka -> str_to_bytes b = Ok kb -> bytes_lt ka kb ->
  (forall c, 0 < len c -> len c mod 30 = 0 ->
     exists m, PidToIntMap_init (Some c) "rb" None = Ok m /\ mm m = c)
  /\ exists f m,
       PidToIntMap_write_records [] [(b, 0); (a, 1)] = (Ok tt, f)
       /\ PidToIntMap_init (Some f) "rb" None = Ok m
       /\ ~ sorted_keys m
       /\ key_at m 1 = ka /\ unpack_q (val_at m 1) = Ok 1
       /\ PidToIntMap_getitem m a = Some (Raise KeyError).
Proof.
  intros Ha Hb Hlt. split.
  - intros c Hpos Hrem. eexists. split.
    + change (PidToIntMap_init (Some c) "rb" None)
        with (_OnDiskMap_init 30 (Some c) "rb" None).
      rewrite init_existing; [| auto | lia].
      apply Z.eqb_eq in Hrem. rewrite Hrem. simpl.
      destruct (len c =? 0) eqn:E; [apply Z.eqb_eq in E; lia | reflexivity].
    + reflexivity.
  - destruct (pack_q 0) as [v0 |] eqn:H0; [| discriminate].
    destruct (pack_q 1) as [v1 |] eqn:H1; [| discriminate].
    set (rows := [(kb, v0); (ka, v1)]).
    assert (HF : Forall2 row_of [(b, 0); (a, 1)] rows)
      by (repeat constructor; assumption).
    pose proof (rows_sized _ _ HF) as Hsz.
    pose proof (flat_len rows Hsz) as Lf.
    change (len rows) with 2 in Lf.
    set (m0 := mkOnDiskMap 30 (len (flat rows)) (len (flat rows) / 30)
                 (flat rows)).
    exists (flat rows), m0.
    assert (Hlen : length m0 = 2)
      by (unfold m0; cbn [length]; rewrite Lf; reflexivity).
    assert (Hk0 : key_at m0 0 = kb)
      by exact (proj1 (written_record rows m0 Hsz eq_refl 0%nat (kb, v0) eq_refl)).
    destruct (written_record rows m0 Hsz eq_refl 1%nat (ka, v1) eq_refl)
      as [Hk1 Hv1].
    change (Z.of_nat 1) with 1 in Hk1, Hv1. simpl fst in Hk1. simpl snd in Hv1.
    split; [| split; [| split; [| split; [exact Hk1 | split]]]].
    + cbn [PidToIntMap_write_records]. unfold PidToIntMap_write_record.
      rewrite Hb, H0, Ha, H1. subst rows. cbn [flat].
      rewrite app_nil_r. change ([] ++ kb) with kb.
      rewrite <- !app_assoc. reflexivity.
    + change (PidToIntMap_init (Some (flat rows)) "rb" None)
        with (_OnDiskMap_init 30 (Some (flat rows)) "rb" None).
      rewrite init_existing; [| auto | lia].
      unfold m0. rewrite Lf. reflexivity.
    + intros Hs.
      assert (Hc := Hs 0 1 ltac:(lia) ltac:(lia) ltac:(lia)).
      rewrite Hk0, Hk1 in Hc. apply bytes_ltb_asym in Hlt.
      unfold bytes_lt in Hc. congruence.
    + rewrite Hv1. exact (unpack_pack_q _ _ H1).
    + unfold PidToIntMap_getitem, PidToIntMap_find, PidToIntMap_find_traced.
      rewrite Ha. cbv zeta. rewrite Hlen.
      change (S (Z.to_nat 2)) with 3%nat. change (2 - 1) with 1.
      rewrite find_loop_step. change (0 <=? 1) with true. cbv iota zeta.
      change ((0 + 1) / 2) with 0. rewrite Hk0.
      rewrite (bytes_ltb_asym _ _ Hlt). unfold bytes_lt in Hlt. rewrite Hlt.
      rewrite find_loop_step. reflexivity.
Qed.

(** ** Iteration *)

Lemma generate_spec {A : Type} (body : Z -> result A) (ps : list Z) :
  forall ys e,
    generate body ps = (ys, e) ->
    Forall2 (fun p y => body p = Ok y) (firstn (List.length ys) ps) ys
    /\ match e with
       | None => List.length ys = List.length ps
       | Some e' =>
           exists p, nth_error ps (List.length ys) = Some p /\ body p = Raise e'
       end.
Proof.
  induction ps as [| p ps IH]; intros ys e H; simpl in H.
  - injection H as <- <-. split; [constructor | reflexivity].
  - destruct (body p) as [a | e'] eqn:Hb.
    + destruct (generate body ps) as [l r] eqn:Hg.
      injection H as <- <-. destruct (IH l r eq_refl) as [IH1 IH2].
      split; [constructor; assumption |].
      destruct r; simpl; [exact IH2 | f_equal; exact IH2].
    + injection H as <- <-. split; [constructor |].
      exists p. split; [reflexivity | exact Hb].
Qed.

Lemma generate_total {A : Type} (body : Z -> result A) (ps : list Z) :
  (forall p, In p ps -> is_ok (body p) = true) ->
  exists ys, generate body ps = (ys, None) /\ List.length ys = List.length ps.
Proof.
  induction ps as [| p ps IH]; intros Hok.
  - exists []. split; reflexivity.
  - destruct IH as (ys & Hg & Hl); [intros q Hq; apply Hok; right; exact Hq |].
    pose proof (Hok p (or_introl eq_refl)) as Hp. simpl.
    destruct (body p) as [a |]; [| discriminate].
    rewrite Hg. exists (a :: ys). split; [reflexivity | simpl; f_equal; exact Hl].
Qed.

Lemma range_length (n : Z) : List.length (range n) = Z.to_nat n.
Proof. unfold range. rewrite length_map, length_seq. reflexivity. Qed.

Lemma range_firstn (k : nat) (n : Z) :
  (k <= Z.to_nat n)%nat -> firstn k (range n) = range (Z.of_nat k).
Proof.
  intros H. unfold range. rewrite firstn_map, Nat2Z.id. f_equal.
  replace (Z.to_nat n) with (k + (Z.to_nat n - k))%nat by lia.
  rewrite seq_app, firstn_app, length_seq, Nat.sub_diag. simpl firstn at 2.
  rewrite app_nil_r. apply firstn_all2. rewrite length_seq. lia.
Qed.

Lemma range_nth_error (n : Z) (i : nat) (p : Z) :
  nth_error (range n) i = Some p -> p = Z.of_nat i /\ Z.of_nat i < n.
Proof.
  intros H.
  assert (Hlt : (i < Z.to_nat n)%nat).
  { rewrite <- range_length. apply nth_error_Some. congruence. }
  split; [| lia].
  unfold range in H. rewrite nth_error_map in H.
  rewrite nth_error_seq in H.
  destruct (Nat.ltb i (Z.to_nat n)) eqn:E; simpl in H; [| discriminate].
  injection H as <-. reflexivity.
Qed.

Lemma range_In (n p : Z) : In p (range n) -> 0 <= p < n.
Proof.
  intros H. apply In_nth_error in H as (i & Hi).
  apply range_nth_error in Hi. lia.
Qed.

(** A generator over [range(n)]: it yields the results of its body at the
    positions [0, 1, ...] in this order, as long as the body returns; it
    yields [n] values when it ends without an exception, and fewer when the
    body raises. *)
Lemma generate_range {A : Type} (body : Z -> result A) (n : Z)
    (ys : list A) (e : option exn) :
  generate body (range n) = (ys, e) ->
  len ys <= Z.max 0 n
  /\ Forall2 (fun pos y => body pos = Ok y) (range (len ys)) ys
  /\ (e = None -> len ys = Z.max 0 n)
  /\ (forall e', e = Some e' -> len ys < n /\ body (len ys) = Raise e').
Proof.
  intros H. apply generate_spec in H as [HF He].
  assert (Hle : (List.length ys <= Z.to_nat n)%nat).
  { destruct e as [e' |].
    - destruct He as (p & Hp & _). apply range_nth_error in Hp. lia.
    - rewrite He, range_length. lia. }
  rewrite range_firstn in HF by exact Hle.
  split; [unfold len; lia |]. split; [exact HF |]. split.
  - intros ->. rewrite range_length in He. unfold len. lia.
  - intros e' ->. destruct He as (p & Hp & Hb).
    apply range_nth_error in Hp as [-> Hlt]. split; assumption.
Qed.

(** C10 (as amended). No operation changes the number of records, the size
    or the length of the buffer: the two [__setitem__] return a map with the
    same three, and the lookups and the iterators return no map at all. An
    iterator yields the records at the positions 0, 1, ... in this order; it
    yields as many as the map has records when it ends without an
    exception, which it does when every record decodes, and it yields fewer
    and ends with the exception of the first record that does not decode
    otherwise. *)
Theorem length_is_invariant (m : _OnDiskMap) :
  (forall pid int r m', PidToIntMap_setitem m pid int = Some (r, m') ->
     length m' = length m /\ size m' = size m /\ len (mm m') = len (mm m))
  /\ (forall pos pid,
        length (snd (IntToPidMap_setitem m pos pid)) = length m
        /\ size (snd (IntToPidMap_setitem m pos pid)) = size m
        /\ len (mm (snd (IntToPidMap_setitem m pos pid))) = len (mm m))
  /\ (forall ys e, PidToIntMap_iter m = (ys, e) ->
        len ys <= Z.max 0 (length m)
        /\ Forall2 (fun pos y => PidToIntMap_get_record m pos = Ok y)
             (range (len ys)) ys
        /\ (e = None -> len ys = Z.max 0 (length m))
        /\ (forall e', e = Some e' ->
              len ys < length m
              /\ PidToIntMap_get_record m (len ys) = Raise e'))
  /\ (forall ys e, IntToPidMap_iter m = (ys, e) ->
        len ys <= Z.max 0 (length m)
        /\ Forall2 (fun pos y => fst y = pos
                                 /\ IntToPidMap_getitem m pos = Ok (snd y))
             (range (len ys)) ys
        /\ (e = None -> len ys = Z.max 0 (length m))
        /\ (forall e', e = Some e' ->
              len ys < length m
              /\ IntToPidMap_getitem m (len ys) = Raise e'))
  /\ ((forall pos, 0 <= pos < length m ->
         is_ok (PidToIntMap_get_record m pos) = true) ->
      exists ys, PidToIntMap_iter m = (ys, None)
                 /\ len ys = Z.max 0 (length m))
  /\ ((forall pos, 0 <= pos < length m ->
         is_ok (IntToPidMap_getitem m pos) = true) ->
      exists ys, IntToPidMap_iter m = (ys, None)
                 /\ len ys = Z.max 0 (length m)).
Proof.
  split; [| split; [| split; [| split; [| split]]]].
  - intros pid int r m'. unfold PidToIntMap_setitem.
    destruct (PidToIntMap_find m pid) as [[[n pos] | e] |]; [| | discriminate].
    + destruct (str_to_bytes pid) as [k |];
        [| intros H; injection H as <- <-; repeat split].
      destruct (mm_assign (mm m) _ _ k) as [mm1 |] eqn:E1;
        [| intros H; injection H as <- <-; repeat split].
      pose proof (mm_assign_len _ _ _ _ _ E1) as L1.
      destruct (pack_q int) as [v |];
        [| intros H; injection H as <- <-; repeat split; exact L1].
      match goal with
      | |- context [mm_assign mm1 ?y ?z ?w] =>
          destruct (mm_assign mm1 y z w) as [mm2 |] eqn:E2
      end; intros H; injection H as <- <-; repeat split; try exact L1.
      simpl. rewrite (mm_assign_len _ _ _ _ _ E2). exact L1.
    + intros H; injection H as <- <-; repeat split.
  - intros pos pid. unfold IntToPidMap_setitem. cbv zeta.
    destruct (str_to_bytes pid) as [k |]; [| repeat split].
    destruct (mm_assign _ _ _ k) as [mm' |] eqn:Ha; [| repeat split].
    simpl. repeat split. exact (mm_assign_len _ _ _ _ _ Ha).
  - intros ys e H. exact (generate_range _ _ _ _ H).
  - intros ys e H. apply generate_range in H as (H1 & H2 & H3 & H4).
    split; [exact H1 |]. split; [| split; [exact H3 |]].
    + revert H2. apply Forall2_impl. intros pos y Hy.
      destruct (IntToPidMap_getitem m pos) as [s |]; [| discriminate].
      simpl in Hy. apply Ok_inj in Hy. subst y. split; reflexivity.
    + intros e' He. destruct (H4 e' He) as [Hlt Hb]. split; [exact Hlt |].
      destruct (IntToPidMap_getitem m (len ys)); [discriminate | simpl in Hb; congruence].
  - intros Hok.
    destruct (generate_total (PidToIntMap_get_record m) (range (length m)))
      as (ys & Hg & Hl).
    { intros p Hp. apply Hok. exact (range_In _ _ Hp). }
    exists ys. split; [exact Hg |].
    rewrite range_length in Hl. unfold len. lia.
  - intros Hok.
    destruct (generate_total
                (fun pos => s <- IntToPidMap_getitem m pos ;; Ok (pos, s))
                (range (length m))) as (ys & Hg & Hl).
    { intros p Hp. apply range_In in Hp. specialize (Hok p Hp).
      destruct (IntToPidMap_getitem m p); [reflexivity | discriminate]. }
    exists ys. split; [exact Hg |].
    rewrite range_length in Hl. unfold len. lia.
Qed.

(** * Further properties of the codec *)

Lemma PidType_value_range (t : PidType) : 1 <= PidType_value t <= 6.
Proof. destruct t; simpl; lia. Qed.

Lemma PidType_by_value_inv (v : Z) (t : PidType) :
  PidType_by_value v = Ok t -> PidType_value t = v.
Proof.
  unfold PidType_by_value.
  destruct (find _ PidType_members) as [t' |] eqn:F; [| discriminate].
  intros H. apply Ok_inj in H. subst t'. apply find_some in F as [_ F].
  apply Z.eqb_eq in F. exact F.
Qed.

(** X1. An encoding is 22 bytes that unpack to the scheme version of the
    parsed identifier, the value of its [PidType], between 1 and 6, and its
    digest cut or padded with null bytes to 20 bytes. *)
Theorem str_to_bytes_fields (x : string) (b : bytes) :
  str_to_bytes x = Ok b ->
  len b = PID_BIN_SIZE
  /\ exists p t d,
       parse_persistent_identifier x = Ok p
       /\ PidType_by_name (object_type p) = Ok t
       /\ fromhex (object_id p) = Ok d
       /\ 0 <= scheme_version p <= 255
       /\ 1 <= PidType_value t <= 6
       /\ len (pack_20s d) = 20
       /\ unpack_PID b = Ok (scheme_version p, PidType_value t, pack_20s d).
Proof.
  intros H. split; [exact (str_to_bytes_len x b H) |].
  revert H. unfold str_to_bytes.
  destruct (parse_persistent_identifier x) as [p |] eqn:Hp; [| discriminate].
  unfold bind at 1.
  destruct (PidType_by_name (object_type p)) as [t |] eqn:Ht; [| discriminate].
  unfold bind at 1.
  destruct (fromhex (object_id p)) as [d |] eqn:Hd; [| discriminate].
  unfold bind at 1. intros H. exists p, t, d.
  split; [reflexivity |]. split; [exact Ht |]. split; [exact Hd |].
  assert (Hv : 0 <= scheme_version p <= 255).
  { revert H. unfold pack_PID, pack_B.
    destruct (0 <=? scheme_version p) eqn:E1;
      destruct (scheme_version p <=? 255) eqn:E2; try discriminate.
    apply Z.leb_le in E1. apply Z.leb_le in E2. lia. }
  split; [exact Hv |]. split; [apply PidType_value_range |].
  split; [apply pack_20s_len | exact (unpack_pack_PID _ _ _ _ H)].
Qed.

(** X2. The order of two 22-byte keys is the order of their fields: by
    version byte, then by type code, then by digest. *)
Theorem key_order_by_fields (b1 b2 : bytes) (v1 t1 v2 t2 : Z) (d1 d2 : bytes) :
  unpack_PID b1 = Ok (v1, t1, d1) ->
  unpack_PID b2 = Ok (v2, t2, d2) ->
  (bytes_lt b1 b2
   <-> v1 < v2 \/ (v1 = v2 /\ (t1 < t2 \/ (t1 = t2 /\ bytes_lt d1 d2)))).
Proof.
  unfold unpack_PID, bytes_lt.
  destruct b1 as [| x1 [| y1 r1]]; try discriminate.
  destruct b2 as [| x2 [| y2 r2]]; try discriminate.
  destruct (len r1 =? 20); [| discriminate].
  destruct (len r2 =? 20); [| discriminate].
  intros H1 H2. apply Ok_inj in H1. apply Ok_inj in H2.
  injection H1 as <- <- <-. injection H2 as <- <- <-.
  cbn [bytes_ltb].
  destruct (byte_val x1 <? byte_val x2) eqn:A1;
    [apply Z.ltb_lt in A1; split; [left; exact A1 | reflexivity] |].
  apply Z.ltb_ge in A1.
  destruct (byte_val x2 <? byte_val x1) eqn:A2;
    [apply Z.ltb_lt in A2; split; [discriminate | lia] |].
  apply Z.ltb_ge in A2.
  destruct (byte_val y1 <? byte_val y2) eqn:B1;
    [apply Z.ltb_lt in B1; split; [right; split; [lia | left; exact B1]
                                  | reflexivity] |].
  apply Z.ltb_ge in B1.
  destruct (byte_val y2 <? byte_val y1) eqn:B2;
    [apply Z.ltb_lt in B2; split; [discriminate | lia] |].
  apply Z.ltb_ge in B2.
  split.
  - intros H. right. split; [lia |]. right. split; [lia | exact H].
  - intros [H | [_ [H | [_ H]]]]; [lia | lia | exact H].
Qed.

(** X3. The decoding of a buffer raises [struct.error] unless the buffer is
    22 bytes, raises [ValueError] when the type byte is not between 1 and
    6, and otherwise prints the identifier of the default scheme version
    with the type of this code and the digest in hexadecimal. *)
Theorem bytes_to_str_outcome (b : bytes) :
  (len b <> PID_BIN_SIZE -> bytes_to_str b = Raise StructError)
  /\ (forall v t d, b = v :: t :: d -> len d = 20 ->
        (~ 1 <= byte_val t <= 6 -> bytes_to_str b = Raise ValueError)
        /\ (1 <= byte_val t <= 6 ->
            exists ty,
              PidType_value ty = byte_val t
              /\ bytes_to_str b
                 = Ok (PersistentId_str
                         (mkPersistentId PID_VERSION (PidType_name ty)
                            (hash_to_hex d))))).
Proof.
  split.
  - intros Hl. unfold bytes_to_str, unpack_PID.
    destruct b as [| v [| t d]]; try reflexivity.
    destruct (len d =? 20) eqn:E; [| reflexivity].
    apply Z.eqb_eq in E. exfalso. apply Hl.
    unfold PID_BIN_SIZE, len in *. simpl List.length. lia.
  - intros v t d -> Hd. unfold bytes_to_str, unpack_PID.
    apply Z.eqb_eq in Hd. rewrite Hd. unfold bind at 1. cbv iota beta.
    pose proof (byte_val_range t) as Rt. split.
    + intros Hn. unfold PidType_by_value.
      destruct (find _ PidType_members) as [ty |] eqn:F; [| reflexivity].
      exfalso. apply Hn. apply find_some in F as [_ F]. apply Z.eqb_eq in F.
      rewrite <- F. apply PidType_value_range.
    + intros Hr.
      assert (Hc : byte_val t = 1 \/ byte_val t = 2 \/ byte_val t = 3
                   \/ byte_val t = 4 \/ byte_val t = 5 \/ byte_val t = 6)
        by lia.
      destruct Hc as [-> | [-> | [-> | [-> | [-> | ->]]]]];
        eexists; (split; [| reflexivity]); reflexivity.
Qed.

(** X4. Decoding a 22-byte record and encoding the text again gives the
    record with its version byte replaced by the default scheme version,
    provided the parser reads back what the printer printed. *)
Theorem str_to_bytes_bytes_to_str (v t : byte) (d : bytes) (ty : PidType) :
  len d = 20 ->
  PidType_by_value (byte_val t) = Ok ty ->
  0 <= PID_VERSION <= 255 ->
  parse_persistent_identifier
    (PersistentId_str
       (mkPersistentId PID_VERSION (PidType_name ty) (hash_to_hex d)))
  = Ok (mkPersistentId PID_VERSION (PidType_name ty) (hash_to_hex d)) ->
  (s <- bytes_to_str (v :: t :: d) ;; str_to_bytes s)
  = Ok (byte_of_Z PID_VERSION :: t :: d).
Proof.
  intros Hd Hty Hv Hp. unfold bytes_to_str, unpack_PID.
  apply Z.eqb_eq in Hd. rewrite Hd. unfold bind at 2. cbv iota beta.
  rewrite Hty. unfold bind at 2. unfold bind at 1.
  unfold str_to_bytes. rewrite Hp. unfold bind at 1. cbn [object_type].
  rewrite PidType_by_name_name. unfold bind at 1. cbn [object_id].
  rewrite fromhex_hash_to_hex. unfold bind at 1. cbn [scheme_version].
  unfold pack_PID, pack_B.
  pose proof (PidType_value_range ty) as Rt.
  destruct (0 <=? PID_VERSION) eqn:E1; [| apply Z.leb_gt in E1; lia].
  destruct (PID_VERSION <=? 255) eqn:E2; [| apply Z.leb_gt in E2; lia].
  destruct (0 <=? PidType_value ty) eqn:E3; [| apply Z.leb_gt in E3; lia].
  destruct (PidType_value ty <=? 255) eqn:E4; [| apply Z.leb_gt in E4; lia].
  simpl. apply Z.eqb_eq in Hd.
  rewrite pack_20s_id by exact Hd.
  rewrite (PidType_by_value_inv _ _ Hty), byte_of_Z_val. reflexivity.
Qed.

(** X5. The round trip of an identifier of the default scheme version:
    when the parser accepts [x], the printer gives [x] back for what was
    parsed, the scheme version is the default one and the digest is 20
    bytes in lowercase hexadecimal, decoding the encoding of [x] gives
    [x]. *)
Theorem round_trip_default_version (x : string) (p : PersistentId)
    (d b : bytes) :
  parse_persistent_identifier x = Ok p ->
  PersistentId_str p = x ->
  scheme_version p = PID_VERSION ->
  object_id p = hash_to_hex d -> len d = 20 ->
  str_to_bytes x = Ok b ->
  bytes_to_str b = Ok x /\ (b' <- str_to_bytes x ;; bytes_to_str b') = Ok x.
Proof.
  intros Hp Hs Hv Hd Hl Hb.
  pose proof (bytes_to_str_str_to_bytes x p d b Hp Hs Hv Hd Hl Hb) as H.
  split; [exact H |]. rewrite Hb. exact H.
Qed.

(** * Further properties of [_OnDiskMap] *)

Lemma firstn_repeat_le {A : Type} (x : A) (n m : nat) :
  (n <= m)%nat -> firstn n (repeat x m) = repeat x n.
Proof.
  revert m. induction n as [| n IH]; intros m H; [reflexivity |].
  destruct m as [| m]; [lia |]. simpl. f_equal. apply IH. lia.
Qed.

Lemma truncate_length (c : bytes) (n : Z) : len (truncate c n) = Z.max 0 n.
Proof.
  unfold truncate, len. rewrite len_firstn_repeat. lia.
Qed.

(** X6. Errors of the open modes: a mode other than ['rb'], ['wb'] and
    ['rb+'] is refused with [ValueError] whatever the file; ['wb'] without a
    length is refused with [ValueError]; ['rb'] and ['rb+'] on a missing
    file raise [OSError], and ignore the length they are given; ['wb'] with
    a negative length raises [OSError], and with the length 0 [ValueError],
    the mapping being empty. *)
Theorem open_mode_errors (R : Z) (file : option bytes) (mode : string)
    (l : option Z) :
  (mode <> "rb"%string -> mode <> "wb"%string -> mode <> "rb+"%string ->
   _OnDiskMap_init R file mode l = Raise ValueError)
  /\ (mode = "wb"%string -> l = None ->
      _OnDiskMap_init R file mode l = Raise ValueError)
  /\ (mode = "rb"%string \/ mode = "rb+"%string -> file = None ->
      _OnDiskMap_init R file mode l = Raise OSError)
  /\ (mode = "rb"%string \/ mode = "rb+"%string ->
      forall l', _OnDiskMap_init R file mode l = _OnDiskMap_init R file mode l')
  /\ (mode = "wb"%string -> 0 < R -> forall n, l = Some n -> n < 0 ->
      _OnDiskMap_init R file mode l = Raise OSError)
  /\ (mode = "wb"%string -> 0 < R -> l = Some 0 ->
      _OnDiskMap_init R file mode l = Raise ValueError).
Proof.
  split; [| split; [| split; [| split; [| split]]]].
  - intros H1 H2 H3. unfold _OnDiskMap_init.
    apply String.eqb_neq in H1, H2, H3.
    cbn [existsb]. rewrite H1, H2, H3. reflexivity.
  - intros -> ->. unfold _OnDiskMap_init. destruct file; reflexivity.
  - intros [-> | ->] ->; reflexivity.
  - intros [-> | ->] l'; reflexivity.
  - intros -> HR n -> Hn. unfold _OnDiskMap_init.
    assert (E : (n * R <? 0) = true) by (apply Z.ltb_lt; nia).
    destruct file; simpl; rewrite E; reflexivity.
  - intros -> HR ->. unfold _OnDiskMap_init.
    assert (ER : (R =? 0) = false) by (apply Z.eqb_neq; lia).
    destruct file as [c |]; simpl; rewrite ER; reflexivity.
Qed.

(** X7. Creating a map of [l > 0] records of [R > 0] bytes with mode
    ['wb'] succeeds: the map has [l] records and [l * R] bytes, all of them
    null when there was no file, and when there was one, the bytes of the
    file cut at [l * R] or followed by null bytes up to this length; an
    existing file of exactly this size is mapped as it is. *)
Theorem create_map (R l : Z) (file : option bytes) :
  0 < R -> 0 < l ->
  exists m,
    _OnDiskMap_init R file "wb" (Some l) = Ok m
    /\ well_formed R m /\ length m = l /\ size m = l * R
    /\ (file = None -> mm m = repeat x00 (Z.to_nat (l * R)))
    /\ (forall c, file = Some c ->
          mm m = firstn (Z.to_nat (l * R)) c
                 ++ repeat x00 (Z.to_nat (l * R) - List.length c))
    /\ (forall c, file = Some c -> len c = l * R -> mm m = c).
Proof.
  intros HR Hl.
  set (c0 := match file with Some c => c | None => [] end).
  assert (Hsplit : truncate c0 (l * R)
            = firstn (Z.to_nat (l * R)) c0
              ++ repeat x00 (Z.to_nat (l * R) - List.length c0)).
  { unfold truncate. rewrite firstn_app. f_equal.
    apply firstn_repeat_le. lia. }
  assert (Hinit : _OnDiskMap_init R file "wb" (Some l)
            = Ok (mkOnDiskMap R (l * R) l (truncate c0 (l * R)))).
  { unfold _OnDiskMap_init.
    assert (E1 : (l * R <? 0) = false) by (apply Z.ltb_ge; nia).
    assert (E2 : (R =? 0) = false) by (apply Z.eqb_neq; lia).
    assert (E3 : len (truncate c0 (l * R)) = l * R)
      by (rewrite truncate_length; nia).
    assert (E4 : ((l * R) mod R =? 0) = true)
      by (apply Z.eqb_eq; apply Z.mod_mul; lia).
    assert (E5 : (l * R =? 0) = false) by (apply Z.eqb_neq; nia).
    assert (E6 : l * R / R = l) by (apply Z.div_mul; lia).
    destruct file as [c |]; simpl; rewrite E1; simpl; fold c0;
      rewrite E2, E3, E4, E5, E6; reflexivity. }
  eexists. split; [exact Hinit |]. simpl.
  split; [| split; [reflexivity | split; [reflexivity | split; [| split]]]].
  - unfold well_formed. simpl. rewrite truncate_length. repeat split; nia.
  - intros ->. rewrite Hsplit. unfold c0. simpl.
    rewrite firstn_nil, Nat.sub_0_r. reflexivity.
  - intros c ->. exact Hsplit.
  - intros c -> Hc. rewrite Hsplit. unfold c0, len in *.
    rewrite firstn_all2 by lia.
    replace (Z.to_nat (l * R) - List.length c)%nat with 0%nat by lia.
    apply app_nil_r.
Qed.

(** * Written files read back *)

Lemma generate_seq {A : Type} (body : Z -> result A) (l : list A) :
  forall s : nat,
    (forall (i : nat) a, nth_error l i = Some a ->
       body (Z.of_nat (s + i)) = Ok a) ->
    generate body (map Z.of_nat (seq s (List.length l))) = (l, None).
Proof.
  induction l as [| a l IH]; intros s H; [reflexivity |].
  simpl. pose proof (H 0%nat a eq_refl) as H0.
  rewrite Nat.add_0_r in H0. rewrite H0.
  rewrite (IH (S s)); [reflexivity |].
  intros i b Hi. replace (S s + i)%nat with (s + S i)%nat by lia.
  apply H. exact Hi.
Qed.

Lemma generate_nth {A : Type} (body : Z -> result A) (l : list A) :
  (forall (i : nat) a, nth_error l i = Some a -> body (Z.of_nat i) = Ok a) ->
  generate body (range (len l)) = (l, None).
Proof.
  intros H. unfold range, len. rewrite Nat2Z.id.
  apply generate_seq. exact H.
Qed.

Lemma opened_written (rows : list (bytes * bytes)) (m : _OnDiskMap) :
  Forall row_sized rows ->
  PidToIntMap_init (Some (flat rows)) "rb" None = Ok m ->
  mm m = flat rows /\ length m = len rows.
Proof.
  intros Hsz Hopen. pose proof (flat_len rows Hsz) as Lf.
  apply init_inv in Hopen as (_ & _ & Hs & _ & Hl & _ & Hfile).
  assert (Hmm : mm m = flat rows).
  { specialize (Hfile ltac:(discriminate)). congruence. }
  split; [exact Hmm |].
  rewrite Hl, Hs, Hmm, Lf, Z.mul_comm. apply Z.div_mul. sizes. lia.
Qed.

(** X8. A forward index file written record by record, in any order, and
    then opened has one record per written record; [_get_record] at a
    position gives the decoding of the key written there and the node id;
    and when every written identifier is decoded from its key, the iterator
    yields the written records, in the order written. *)
Theorem iterate_written_forward (recs : list (string * Z)) (f : bytes)
    (m : _OnDiskMap) :
  PidToIntMap_write_records [] recs = (Ok tt, f) ->
  PidToIntMap_init (Some f) "rb" None = Ok m ->
  length m = len recs
  /\ (forall (i : nat) pid n,
        nth_error recs i = Some (pid, n) ->
        exists k,
          str_to_bytes pid = Ok k
          /\ PidToIntMap_get_record m (Z.of_nat i)
             = (s <- bytes_to_str k ;; Ok (s, n)))
  /\ ((forall pid n k, In (pid, n) recs -> str_to_bytes pid = Ok k ->
         bytes_to_str k = Ok pid) ->
      PidToIntMap_iter m = (recs, None)).
Proof.
  intros Hw Hopen.
  apply write_records_rows in Hw as (rows & Hf & HF). simpl in Hf. subst f.
  pose proof (rows_sized recs rows HF) as Hsz.
  destruct (opened_written rows m Hsz Hopen) as [Hmm Hlen].
  assert (Hrl : len rows = len recs).
  { unfold len. rewrite (Forall2_length HF). reflexivity. }
  assert (Hget : forall (i : nat) pid n,
            nth_error recs i = Some (pid, n) ->
            exists k,
              str_to_bytes pid = Ok k
              /\ PidToIntMap_get_record m (Z.of_nat i)
                 = (s <- bytes_to_str k ;; Ok (s, n))).
  { intros i pid n Hi.
    destruct (Forall2_nth_error_l _ _ _ _ _ HF Hi) as (row & Hrow & Hpk & Hpv).
    simpl in Hpk, Hpv.
    destruct (written_record rows m Hsz Hmm i row Hrow) as [Hki Hvi].
    exists (fst row). split; [exact Hpk |].
    unfold PidToIntMap_get_record. rewrite get_bin_record_eta, Hki, Hvi.
    rewrite (unpack_pack_q _ _ Hpv). reflexivity. }
  split; [congruence |]. split; [exact Hget |].
  intros Hrt. unfold PidToIntMap_iter. rewrite Hlen, Hrl.
  apply generate_nth. intros i [pid n] Hi.
  destruct (Hget i pid n Hi) as (k & Hk & ->).
  rewrite (Hrt pid n k (nth_error_In _ _ Hi) Hk). reflexivity.
Qed.

Lemma concat_len (R : Z) (cs : list bytes) :
  Forall (fun c => len c = R) cs -> len (List.concat cs) = R * len cs.
Proof.
  induction 1 as [| c cs Hc HF IH]; [simpl; unfold len; simpl; lia |].
  simpl List.concat. rewrite len_app, IH, Hc. unfold len. simpl List.length. lia.
Qed.

(** The record at position [i] of a file of records of [R] bytes. *)
Lemma concat_record (R : Z) (cs : list bytes) :
  Forall (fun c => len c = R) cs ->
  forall (i : nat) c,
    nth_error cs i = Some c ->
    mm_slice (List.concat cs) (Z.of_nat i * R) (Z.of_nat i * R + R) = c.
Proof.
  induction 1 as [| c0 cs Hc HF IH]; intros i c Hi.
  - destruct i; discriminate.
  - pose proof (concat_len R cs HF) as Lc. pose proof (len_nonneg cs) as Ln.
    pose proof (len_nonneg c0) as L0.
    destruct i as [| i]; simpl in Hi.
    + injection Hi as <-. simpl List.concat.
      rewrite mm_slice_app_left by lia.
      replace (Z.of_nat 0 * R + R) with (len c0) by lia.
      apply mm_slice_all.
    + assert (Hlt : (i < List.length cs)%nat)
        by (apply nth_error_Some; unfold bytes in *; congruence).
      simpl List.concat.
      replace (Z.of_nat (S i) * R) with (len c0 + Z.of_nat i * R) by lia.
      replace (len c0 + Z.of_nat i * R + R)
        with (len c0 + (Z.of_nat i * R + R)) by lia.
      assert (HR : 0 <= R) by lia.
      assert (Hi1 : Z.of_nat i + 1 <= len cs) by (unfold len; lia).
      assert (Hb : Z.of_nat i * R + R <= R * len cs).
      { replace (Z.of_nat i * R + R) with (R * (Z.of_nat i + 1)) by lia.
        apply Z.mul_le_mono_nonneg_l; assumption. }
      assert (Ha : 0 <= Z.of_nat i * R) by (apply Z.mul_nonneg_nonneg; lia).
      rewrite mm_slice_app_shift; [exact (IH i c Hi) | lia | lia |].
      unfold bytes in *. rewrite Lc. exact Hb.
Qed.

Lemma reverse_records_keys (pids : list string) :
  forall f f',
    IntToPidMap_write_records f pids = (Ok tt, f') ->
    exists ks,
      f' = f ++ List.concat ks
      /\ Forall2 (fun pid k => str_to_bytes pid = Ok k) pids ks.
Proof.
  induction pids as [| pid pids IH]; intros f f' H.
  - simpl in H. injection H as H. exists []. split; [| constructor].
    simpl. rewrite app_nil_r. symmetry. exact H.
  - cbn [IntToPidMap_write_records] in H. unfold IntToPidMap_write_record in H.
    destruct (str_to_bytes pid) as [k |] eqn:Hk; [| discriminate].
    apply IH in H as (ks & -> & HF).
    exists (k :: ks). split.
    + simpl. rewrite <- app_assoc. reflexivity.
    + constructor; assumption.
Qed.

(** X9. A reverse index file written identifier by identifier and then
    opened has one record per identifier; the record at position [i] is the
    key of the [i]-th identifier written, [__getitem__] there gives its
    decoding; and when every written identifier is decoded from its key,
    the iterator yields the pairs of a position and the identifier written
    there, from position 0 on. *)
Theorem reverse_written (pids : list string) (f : bytes) (m : _OnDiskMap) :
  IntToPidMap_write_records [] pids = (Ok tt, f) ->
  IntToPidMap_init (Some f) "rb" None = Ok m ->
  length m = len pids
  /\ (forall (i : nat) pid,
        nth_error pids i = Some pid ->
        exists k,
          str_to_bytes pid = Ok k
          /\ IntToPidMap_get_bin_record m (Z.of_nat i) = k
          /\ IntToPidMap_getitem m (Z.of_nat i) = bytes_to_str k)
  /\ ((forall pid k, In pid pids -> str_to_bytes pid = Ok k ->
         bytes_to_str k = Ok pid) ->
      IntToPidMap_iter m = (combine (range (len pids)) pids, None)).
Proof.
  intros Hw Hopen.
  apply reverse_records_keys in Hw as (ks & Hf & HF). simpl in Hf. subst f.
  assert (Hsz : Forall (fun c => len c = 22) ks).
  { clear Hopen. induction HF as [| pid k pids ks Hk HF IH]; constructor;
      [exact (str_to_bytes_len _ _ Hk) | exact IH]. }
  pose proof (concat_len 22 ks Hsz) as Lf.
  assert (Hkl : len ks = len pids).
  { unfold len. rewrite (Forall2_length HF). reflexivity. }
  apply init_inv in Hopen as (_ & _ & Hs & _ & Hl & _ & Hfile).
  assert (Hmm : mm m = List.concat ks).
  { specialize (Hfile ltac:(discriminate)). congruence. }
  assert (Hlen : length m = len pids).
  { rewrite Hl, Hs, Hmm. unfold bytes in *. rewrite Lf, Hkl, Z.mul_comm.
    apply Z.div_mul. sizes. lia. }
  assert (Hget : forall (i : nat) pid,
            nth_error pids i = Some pid ->
            exists k,
              str_to_bytes pid = Ok k
              /\ IntToPidMap_get_bin_record m (Z.of_nat i) = k
              /\ IntToPidMap_getitem m (Z.of_nat i) = bytes_to_str k).
  { intros i pid Hi.
    destruct (Forall2_nth_error_l _ _ _ _ _ HF Hi) as (k & Hk & Hpk).
    exists k. split; [exact Hpk |].
    assert (Hrec : IntToPidMap_get_bin_record m (Z.of_nat i) = k).
    { unfold IntToPidMap_get_bin_record. rewrite Hmm. sizes.
      exact (concat_record 22 ks Hsz i k Hk). }
    split; [exact Hrec |].
    assert (Hlt : (i < List.length pids)%nat)
      by (apply nth_error_Some; congruence).
    unfold IntToPidMap_getitem, translate, _OnDiskMap_len. rewrite Hlen.
    destruct (Z.of_nat i <? 0) eqn:E1; [apply Z.ltb_lt in E1; lia |].
    destruct (0 <=? Z.of_nat i) eqn:E2; [| apply Z.leb_gt in E2; lia].
    destruct (Z.of_nat i <? len pids) eqn:E3;
      [| apply Z.ltb_ge in E3; unfold len in E3; lia].
    simpl. rewrite Hrec. reflexivity. }
  split; [exact Hlen |]. split; [exact Hget |].
  intros Hrt. unfold IntToPidMap_iter. rewrite Hlen.
  assert (Hcl : len (combine (range (len pids)) pids) = len pids).
  { unfold len at 1. rewrite length_combine, range_length.
    unfold len. lia. }
  rewrite <- Hcl at 1. apply generate_nth. intros i [pos pid] Hi.
  assert (Hc : nth_error (range (len pids)) i = Some pos
               /\ nth_error pids i = Some pid).
  { clear - Hi. revert i Hi. generalize (range (len pids)) as ps.
    induction ps as [| p ps IH]; intros i Hi;
      [destruct i; discriminate |].
    destruct pids as [| q qs]; [destruct i; discriminate |].
    destruct i as [| i]; simpl in Hi.
    - injection Hi as <- <-. split; reflexivity.
    - revert i Hi. clear IH. revert qs.
      induction ps as [| p' ps IH]; intros qs i Hi;
        [destruct i; discriminate |].
      destruct qs as [| q' qs]; [destruct i; discriminate |].
      destruct i as [| i]; simpl in Hi.
      + injection Hi as <- <-. split; reflexivity.
      + simpl. exact (IH qs i Hi). }
  destruct Hc as [Hpos Hpid].
  apply range_nth_error in Hpos as [-> _].
  destruct (Hget i pid Hpid) as (k & Hk & _ & ->).
  rewrite (Hrt pid k (nth_error_In _ _ Hpid) Hk). reflexivity.
Qed.

(** * Further properties of the reverse index *)

Lemma getitem_in_range (m : _OnDiskMap) (pos : Z) :
  0 <= pos < length m ->
  IntToPidMap_getitem m pos = bytes_to_str (IntToPidMap_get_bin_record m pos).
Proof.
  intros Hp. unfold IntToPidMap_getitem, translate, _OnDiskMap_len.
  destruct (pos <? 0) eqn:E1; [apply Z.ltb_lt in E1; lia |].
  destruct (0 <=? pos) eqn:E2; [| apply Z.leb_gt in E2; lia].
  destruct (pos <? length m) eqn:E3; [| apply Z.ltb_ge in E3; lia].
  reflexivity.
Qed.

(** X10. [IntToPidMap.__setitem__] at a position of the index, with an
    identifier that encodes: the call succeeds, the record at the position
    is the key of the identifier and [__getitem__] there gives its decoding;
    every other record, and what [__getitem__] gives there, is as before;
    and the map is still well formed. *)
Theorem reverse_set_in_range (m : _OnDiskMap) (pos : Z) (pid : string)
    (k : bytes) :
  well_formed IntToPidMap_RECORD_SIZE m ->
  0 <= pos < length m ->
  str_to_bytes pid = Ok k ->
  exists m',
    IntToPidMap_setitem m pos pid = (Ok tt, m')
    /\ well_formed IntToPidMap_RECORD_SIZE m'
    /\ IntToPidMap_get_bin_record m' pos = k
    /\ IntToPidMap_getitem m' pos = bytes_to_str k
    /\ (forall i, 0 <= i < length m -> i <> pos ->
          IntToPidMap_get_bin_record m' i = IntToPidMap_get_bin_record m i
          /\ IntToPidMap_getitem m' i = IntToPidMap_getitem m i).
Proof.
  intros (HR & Hs & Hl & H0) Hp Hk.
  pose proof (str_to_bytes_len _ _ Hk) as Lk. sizes.
  assert (Ha : mm_assign (mm m) (pos * 22) (pos * 22 + 22) k
               = Ok (firstn (Z.to_nat (pos * 22)) (mm m) ++ k
                     ++ skipn (Z.to_nat (pos * 22 + 22)) (mm m)))
    by (apply mm_assign_in; lia).
  eexists. split.
  { unfold IntToPidMap_setitem. rewrite Hk. cbv zeta. sizes.
    rewrite Ha. reflexivity. }
  pose proof (mm_assign_len _ _ _ _ _ Ha) as Ll.
  assert (Hrec : IntToPidMap_get_bin_record
                   (set_mm m (firstn (Z.to_nat (pos * 22)) (mm m) ++ k
                              ++ skipn (Z.to_nat (pos * 22 + 22)) (mm m))) pos
                 = k).
  { unfold IntToPidMap_get_bin_record. sizes. simpl mm.
    apply (mm_slice_assign_same (mm m) _ (pos * 22) (pos * 22 + 22) k);
      try exact Ha; lia. }
  assert (Hoth : forall i, 0 <= i < length m -> i <> pos ->
            IntToPidMap_get_bin_record
              (set_mm m (firstn (Z.to_nat (pos * 22)) (mm m) ++ k
                         ++ skipn (Z.to_nat (pos * 22 + 22)) (mm m))) i
            = IntToPidMap_get_bin_record m i).
  { intros i Hi Hne. unfold IntToPidMap_get_bin_record. sizes. simpl mm.
    apply (mm_slice_assign_other (mm m) _ (pos * 22) (pos * 22 + 22) _ _ k);
      try exact Ha; lia. }
  split; [| split; [exact Hrec | split]].
  - unfold well_formed. simpl. rewrite Ll. repeat split; assumption.
  - rewrite getitem_in_range by (simpl; lia). rewrite Hrec. reflexivity.
  - intros i Hi Hne. split; [exact (Hoth i Hi Hne) |].
    rewrite !getitem_in_range by (simpl; lia).
    rewrite (Hoth i Hi Hne). reflexivity.
Qed.

(** X11. [IntToPidMap.__setitem__] at a negative position, which is not
    translated as it is by [__getitem__]: the byte offset is negative and
    the slice counts from the end of the buffer. At [-1] the slice is empty
    and the call raises [IndexError]; at [-j] with [2 <= j <= L] the call
    does what it does at [L - j]; below [-L] it raises [IndexError]. A call
    that raises leaves the map as it was. *)
Theorem reverse_set_negative (m : _OnDiskMap) (pid : string) (k : bytes) :
  well_formed IntToPidMap_RECORD_SIZE m ->
  str_to_bytes pid = Ok k ->
  IntToPidMap_setitem m (- 1) pid = (Raise IndexError, m)
  /\ (forall j, 2 <= j <= length m ->
        IntToPidMap_setitem m (- j) pid
        = IntToPidMap_setitem m (length m - j) pid)
  /\ (forall j, length m < j ->
        IntToPidMap_setitem m (- j) pid = (Raise IndexError, m)).
Proof.
  intros (HR & Hs & Hl & H0) Hk.
  pose proof (str_to_bytes_len _ _ Hk) as Lk. sizes.
  assert (Hempty : forall a b,
            Z.max (adjust (len (mm m)) b - adjust (len (mm m)) a) 0 = 0 ->
            mm_assign (mm m) a b k = Raise IndexError).
  { intros a b E. unfold mm_assign. rewrite E, Lk. reflexivity. }
  split; [| split].
  - unfold IntToPidMap_setitem. rewrite Hk. cbv zeta. sizes.
    rewrite Hempty; [reflexivity |]. unfold adjust. simpl.
    destruct (len (mm m) =? 0) eqn:E; lia.
  - intros j Hj. unfold IntToPidMap_setitem. rewrite Hk. cbv zeta. sizes.
    assert (E : mm_assign (mm m) (- j * 22) (- j * 22 + 22) k
                = mm_assign (mm m) ((length m - j) * 22)
                    ((length m - j) * 22 + 22) k).
    { unfold mm_assign, adjust.
      destruct (- j * 22 <? 0) eqn:E1; [| apply Z.ltb_ge in E1; lia].
      destruct (- j * 22 + 22 <? 0) eqn:E2; [| apply Z.ltb_ge in E2; lia].
      destruct ((length m - j) * 22 <? 0) eqn:E3; [apply Z.ltb_lt in E3; lia |].
      destruct ((length m - j) * 22 + 22 <? 0) eqn:E4;
        [apply Z.ltb_lt in E4; lia |].
      replace (Z.max (- j * 22 + len (mm m)) 0)
        with (Z.min ((length m - j) * 22) (len (mm m))) by lia.
      replace (Z.max (- j * 22 + 22 + len (mm m)) 0)
        with (Z.min ((length m - j) * 22 + 22) (len (mm m))) by lia.
      reflexivity. }
    rewrite E. reflexivity.
  - intros j Hj. unfold IntToPidMap_setitem. rewrite Hk. cbv zeta. sizes.
    rewrite Hempty; [reflexivity |]. unfold adjust.
    destruct (- j * 22 <? 0) eqn:E1; [| apply Z.ltb_ge in E1; lia].
    destruct (- j * 22 + 22 <? 0) eqn:E2; lia.
Qed.

(** * Further properties of the forward index *)

(** The number of records a run of the loop probes: each probe halves the
    interval that is left. *)
Lemma find_loop_probes (self : _OnDiskMap) (target : bytes) (fuel : nat) :
  forall min max tr r,
    find_loop fuel self target min max = Some (tr, r) ->
    exists probes,
      tr = flat_map PidToIntMap_get_bin_record_reads probes
      /\ 2 ^ len probes <= Z.max 1 (2 * (max - min + 1)).
Proof.
  induction fuel as [| fuel IH]; intros min max tr r H; [discriminate |].
  rewrite find_loop_step in H.
  destruct (min <=? max) eqn:E.
  - apply Z.leb_le in E. pose proof (mid_bounds min max E) as Hm.
    cbv zeta in H. set (mid := (min + max) / 2) in *.
    assert (Hmid : 2 * mid <= min + max < 2 * mid + 2).
    { unfold mid. pose proof (Z.div_mod (min + max) 2 ltac:(lia)).
      pose proof (Z.mod_pos_bound (min + max) 2 ltac:(lia)). lia. }
    assert (Hstep : forall probes' lo hi,
              2 ^ len probes' <= Z.max 1 (2 * (hi - lo + 1)) ->
              2 * (hi - lo + 1) <= max - min + 1 ->
              2 ^ len (mid :: probes') <= Z.max 1 (2 * (max - min + 1))).
    { intros probes' lo hi Hb Hw.
      change (len (mid :: probes')) with (Z.of_nat (S (List.length probes'))).
      rewrite Nat2Z.inj_succ, Z.pow_succ_r by lia.
      fold (len probes'). lia. }
    destruct (bytes_ltb (key_at self mid) target).
    + destruct (find_loop fuel self target (mid + 1) max) as [[t a] |] eqn:Hr;
        [| discriminate].
      simpl in H. injection H as <- <-.
      destruct (IH _ _ _ _ Hr) as (probes & -> & Hb).
      exists (mid :: probes). split; [reflexivity |].
      apply (Hstep probes (mid + 1) max Hb). lia.
    + destruct (bytes_ltb target (key_at self mid)).
      * destruct (find_loop fuel self target min (mid - 1)) as [[t a] |] eqn:Hr;
          [| discriminate].
        simpl in H. injection H as <- <-.
        destruct (IH _ _ _ _ Hr) as (probes & -> & Hb).
        exists (mid :: probes). split; [reflexivity |].
        apply (Hstep probes min (mid - 1) Hb). lia.
      * injection H as <- <-. exists [mid]. split; [reflexivity |].
        change (2 ^ len [mid]) with 2. lia.
  - injection H as <- <-. exists []. split; [reflexivity |].
    change (2 ^ len (@nil Z)) with 1. lia.
Qed.

(** X12. The cost of a lookup in a forward index of [L > 0] records: it
    probes at most [log2 L + 1] records, sorted or not, and reads the two
    slices of each of them. *)
Theorem lookup_probes_logarithmic (m : _OnDiskMap) (pid : string)
    (tr : list Access) (r : result (Z * Z)) :
  0 < length m ->
  PidToIntMap_find_traced m pid = Some (tr, r) ->
  exists probes,
    tr = flat_map PidToIntMap_get_bin_record_reads probes
    /\ 2 ^ len probes <= 2 * length m
    /\ len probes <= Z.log2 (length m) + 1.
Proof.
  intros HL H.
  assert (Hex : exists probes,
            tr = flat_map PidToIntMap_get_bin_record_reads probes
            /\ 2 ^ len probes <= 2 * length m).
  { revert H. unfold PidToIntMap_find_traced.
    destruct (str_to_bytes pid) as [target | e].
    - cbv zeta. intros H. apply find_loop_probes in H as (probes & -> & Hb).
      exists probes. split; [reflexivity | lia].
    - intros H. exists []. split; [| change (2 ^ len (@nil Z)) with 1; lia].
      destruct e; injection H as <- _; reflexivity. }
  destruct Hex as (probes & Htr & Hb). exists probes.
  split; [exact Htr |]. split; [exact Hb |].
  pose proof (len_nonneg probes) as Hn.
  apply (Z.log2_le_pow2 (2 * length m) (len probes)) in Hb; [| lia].
  rewrite Z.log2_double in Hb by lia. lia.
Qed.

(** X13. A lookup has no false positive, whatever the order of the
    records: when it returns a node id, the identifier
    encodes to a key that a record of the index holds, with this node id as
    its value. *)
Theorem lookup_returns_stored_value (m : _OnDiskMap) (pid : string) (n : Z) :
  PidToIntMap_getitem m pid = Some (Ok n) ->
  exists target pos,
    str_to_bytes pid = Ok target
    /\ 0 <= pos < length m
    /\ key_at m pos = target
    /\ unpack_q (val_at m pos) = Ok n.
Proof.
  unfold PidToIntMap_getitem.
  destruct (find_spec m pid) as (r & Hr & Hc). rewrite Hr. simpl.
  destruct (str_to_bytes pid) as [target | e].
  - destruct Hc as [-> | (pos & Hp & Hk & ->)]; [discriminate |].
    unfold found. destruct (unpack_q (val_at m pos)) as [v |] eqn:Hv;
      [| discriminate].
    simpl. intros H. injection H as <-.
    exists target, pos. repeat split; try assumption; lia.
  - subst r. discriminate.
Qed.

(** On records in ascending key order, equal keys allowed, the loop ends at
    a record that holds the key when one does. *)
Lemma find_loop_present_weak (self : _OnDiskMap) (target : bytes) :
  sorted_keys_weak self ->
  forall (fuel : nat) min max i,
    Z.max 0 (max - min + 1) < Z.of_nat fuel ->
    0 <= min -> max < length self ->
    min <= i <= max -> key_at self i = target ->
    exists tr pos,
      find_loop fuel self target min max = Some (tr, found self pos)
      /\ min <= pos <= max /\ key_at self pos = target.
Proof.
  intros Hs. induction fuel as [| fuel IH]; intros min max i Hf Hmin Hmax Hi Hk;
    [lia |].
  rewrite find_loop_step.
  assert (E : min <= max) by lia.
  pose proof (mid_bounds min max E) as Hm.
  apply Z.leb_le in E. rewrite E. cbv zeta.
  set (mid := (min + max) / 2) in *.
  destruct (bytes_ltb (key_at self mid) target) eqn:L1.
  - assert (mid < i).
    { destruct (Z_lt_le_dec mid i) as [| Hle]; [assumption | exfalso].
      destruct (Z.eq_dec i mid) as [-> | Hne].
      - rewrite Hk, bytes_ltb_irrefl in L1. discriminate.
      - assert (Hc := Hs i mid ltac:(lia) ltac:(lia) ltac:(lia)).
        rewrite Hk in Hc. congruence. }
    destruct (IH (mid + 1) max i) as (tr & pos & Hr & Hp & Hkp);
      try lia; try assumption.
    rewrite Hr. simpl. eexists _, pos. repeat split; try assumption; lia.
  - destruct (bytes_ltb target (key_at self mid)) eqn:L2.
    + assert (i < mid).
      { destruct (Z_lt_le_dec i mid) as [| Hle]; [assumption | exfalso].
        destruct (Z.eq_dec i mid) as [-> | Hne].
        - rewrite Hk, bytes_ltb_irrefl in L2. discriminate.
        - assert (Hc := Hs mid i ltac:(lia) ltac:(lia) ltac:(lia)).
          rewrite Hk in Hc. congruence. }
      destruct (IH min (mid - 1) i) as (tr & pos & Hr & Hp & Hkp);
        try lia; try assumption.
      rewrite Hr. simpl. eexists _, pos. repeat split; try assumption; lia.
    + eexists _, mid. split; [reflexivity |]. split; [lia |].
      apply bytes_ltb_total; assumption.
Qed.

(** X14. Equal keys are tolerated: in a well-formed forward index whose
    records are in ascending key order, equal keys allowed, the lookup of
    an identifier whose key a record holds returns the node id of a record
    that holds this key. *)
Theorem lookup_sorted_with_duplicates (m : _OnDiskMap) (pid : string)
    (target : bytes) (i : Z) :
  well_formed PidToIntMap_RECORD_SIZE m ->
  sorted_keys_weak m ->
  str_to_bytes pid = Ok target ->
  0 <= i < length m -> key_at m i = target ->
  exists pos n,
    PidToIntMap_getitem m pid = Some (Ok n)
    /\ 0 <= pos < length m /\ key_at m pos = target
    /\ unpack_q (val_at m pos) = Ok n.
Proof.
  intros Hw Hs Ht Hi Hk.
  destruct (find_loop_present_weak m target Hs (S (Z.to_nat (length m))) 0
              (length m - 1) i) as (tr & pos & Hr & Hp & Hkp);
    try lia; try assumption.
  destruct (found_ok m pos Hw ltac:(lia)) as (n & Hn & Hv).
  exists pos, n. split; [| repeat split; try assumption; lia].
  unfold PidToIntMap_getitem, PidToIntMap_find, PidToIntMap_find_traced.
  rewrite Ht. cbv zeta. rewrite Hr. simpl. rewrite Hn. reflexivity.
Qed.

(** X15. [PidToIntMap.write_record] writes the key before it packs the node
    id: with an identifier that does not encode nothing is written, and
    with one that encodes and a node id outside of the signed 64-bit range
    the call raises [struct.error] after it has written the 22 bytes of the
    key, which leaves a file of whole records with a size that is no
    multiple of 30 and that cannot be opened. *)
Theorem write_record_partial (f : bytes) (pid : string) (int : Z) :
  (forall e, str_to_bytes pid = Raise e ->
     PidToIntMap_write_record f pid int = (Raise e, f))
  /\ (forall k, str_to_bytes pid = Ok k ->
        ~ (- 2 ^ 63 <= int < 2 ^ 63) ->
        PidToIntMap_write_record f pid int = (Raise StructError, f ++ k)
        /\ len (f ++ k) = len f + 22
        /\ (len f mod 30 = 0 ->
            forall mode l, mode = "rb"%string \/ mode = "rb+"%string ->
              PidToIntMap_init (Some (f ++ k)) mode l = Raise ValueError))
  /\ (forall k, str_to_bytes pid = Ok k ->
        - 2 ^ 63 <= int < 2 ^ 63 ->
        exists v,
          pack_q int = Ok v
          /\ PidToIntMap_write_record f pid int = (Ok tt, (f ++ k) ++ v)
          /\ len ((f ++ k) ++ v) = len f + 30).
Proof.
  split; [| split].
  - intros e He. unfold PidToIntMap_write_record. rewrite He. reflexivity.
  - intros k Hk Hint. pose proof (str_to_bytes_len _ _ Hk) as Lk. sizes.
    assert (Hq : pack_q int = Raise StructError).
    { unfold pack_q.
      destruct (- 2 ^ 63 <=? int) eqn:E1; [| reflexivity].
      destruct (int <? 2 ^ 63) eqn:E2; [| reflexivity].
      apply Z.leb_le in E1. apply Z.ltb_lt in E2. lia. }
    split; [| split].
    + unfold PidToIntMap_write_record. rewrite Hk, Hq. reflexivity.
    + rewrite len_app. lia.
    + intros Hmod mode l Hmode.
      change (PidToIntMap_init (Some (f ++ k)) mode l)
        with (_OnDiskMap_init 30 (Some (f ++ k)) mode l).
      rewrite init_existing; [| exact Hmode | lia].
      rewrite len_app, Lk.
      assert (E : (len f + 22) mod 30 = 22).
      { rewrite Z.add_mod, Hmod by lia. reflexivity. }
      rewrite E. reflexivity.
  - intros k Hk Hint. pose proof (str_to_bytes_len _ _ Hk) as Lk. sizes.
    destruct (pack_q int) as [v |] eqn:Hq.
    + exists v. split; [reflexivity |].
      pose proof (pack_q_len _ _ Hq) as Lv. sizes. split.
      * unfold PidToIntMap_write_record. rewrite Hk, Hq. reflexivity.
      * rewrite !len_app. lia.
    + exfalso. revert Hq. unfold pack_q.
      destruct (- 2 ^ 63 <=? int) eqn:E1; [| apply Z.leb_gt in E1; lia].
      destruct (int <? 2 ^ 63) eqn:E2; [discriminate | apply Z.ltb_ge in E2; lia].
Qed.

(** * Updates and lookups composed *)

Lemma be_value_range (b : bytes) :
  0 <= be_value b < 256 ^ len b.
Proof.
  induction b as [| x b IH] using rev_ind.
  - unfold be_value, len. simpl. lia.
  - rewrite be_value_snoc, len_app.
    change (len [x]) with 1.
    rewrite Z.pow_add_r, Z.pow_1_r by (try apply len_nonneg; lia).
    pose proof (byte_val_range x). lia.
Qed.

Lemma be_bytes_be_value (b : bytes) :
  be_bytes (List.length b) (be_value b) = b.
Proof.
  induction b as [| x b IH] using rev_ind; [reflexivity |].
  rewrite length_app, Nat.add_1_r. cbn [be_bytes List.length].
  rewrite be_value_snoc. pose proof (byte_val_range x) as Rx.
  rewrite Z.div_add_l, Z.div_small, Z.add_0_r by lia.
  rewrite Z.add_comm, Z.mod_add, Z.mod_small by lia.
  rewrite IH, byte_of_Z_val. reflexivity.
Qed.

(** Packing what was unpacked from 8 bytes gives the 8 bytes. *)
Lemma pack_unpack_q (b : bytes) (n : Z) : unpack_q b = Ok n -> pack_q n = Ok b.
Proof.
  unfold unpack_q. destruct (len b =? INT_BIN_SIZE) eqn:E; [| discriminate].
  apply Z.eqb_eq in E. unfold INT_BIN_SIZE in E.
  pose proof (be_value_range b) as Rb. rewrite E in Rb.
  change (256 ^ 8) with (2 ^ 64) in Rb.
  intros H. apply Ok_inj in H. unfold pack_q.
  assert (Hl : List.length b = 8%nat) by (unfold len in E; lia).
  destruct (be_value b <? 2 ^ 63) eqn:C;
    [apply Z.ltb_lt in C | apply Z.ltb_ge in C]; subst n.
  - destruct (- 2 ^ 63 <=? be_value b) eqn:E1; [| apply Z.leb_gt in E1; lia].
    destruct (be_value b <? 2 ^ 63) eqn:E2; [| apply Z.ltb_ge in E2; lia].
    cbn [andb]. rewrite Z.mod_small by lia.
    replace 8%nat with (List.length b) by lia.
    rewrite be_bytes_be_value. reflexivity.
  - destruct (- 2 ^ 63 <=? be_value b - 2 ^ 64) eqn:E1;
      [| apply Z.leb_gt in E1; lia].
    destruct (be_value b - 2 ^ 64 <? 2 ^ 63) eqn:E2;
      [| apply Z.ltb_ge in E2; lia].
    cbn [andb].
    assert (Hm : (be_value b - 2 ^ 64) mod 2 ^ 64 = be_value b)
      by (symmetry; apply Z.mod_unique with (q := -1); lia).
    rewrite Hm. replace 8%nat with (List.length b) by lia.
    rewrite be_bytes_be_value. reflexivity.
Qed.

(** [__setitem__] once [_find] has ended at the record at [pos]. *)
Lemma setitem_found (m : _OnDiskMap) (pid : string) (int : Z) (pos : Z)
    (v : bytes) :
  well_formed PidToIntMap_RECORD_SIZE m ->
  0 <= pos < length m ->
  str_to_bytes pid = Ok (key_at m pos) ->
  PidToIntMap_find m pid = Some (found m pos) ->
  pack_q int = Ok v ->
  PidToIntMap_setitem m pid int
  = Some (Ok tt,
          set_mm m (firstn (Z.to_nat (pos * 30 + 22)) (mm m) ++ v
                    ++ skipn (Z.to_nat (pos * 30 + 22 + 8)) (mm m))).
Proof.
  intros Hw Hp Hk Hf Hv. unfold PidToIntMap_setitem. rewrite Hf.
  destruct (found_ok m pos Hw Hp) as (n & -> & _). rewrite Hk.
  destruct Hw as (HR & Hs & Hl & H0). sizes.
  rewrite key_at_slice at 1. rewrite mm_assign_same by lia.
  rewrite Hv. pose proof (pack_q_len _ _ Hv) as Lv. sizes.
  rewrite mm_assign_in by lia. reflexivity.
Qed.


(** The loop goes the same way on two buffers that hold the same keys: it
    runs out of fuel on both, ends with [KeyError] on both, or ends at the
    same record on both, having read the same slices. *)
Lemma find_loop_keys_only (m1 m2 : _OnDiskMap) (target : bytes) (L : Z) :
  (forall i, 0 <= i < L -> key_at m1 i = key_at m2 i) ->
  forall (fuel : nat) min max,
    0 <= min -> max < L ->
    (find_loop fuel m1 target min max = None
     /\ find_loop fuel m2 target min max = None)
    \/ (exists tr,
          find_loop fuel m1 target min max = Some (tr, Raise KeyError)
          /\ find_loop fuel m2 target min max = Some (tr, Raise KeyError))
    \/ (exists tr pos,
          min <= pos <= max /\ key_at m1 pos = target
          /\ find_loop fuel m1 target min max = Some (tr, found m1 pos)
          /\ find_loop fuel m2 target min max = Some (tr, found m2 pos)).
Proof.
  intros Hkeys. induction fuel as [| fuel IH]; intros min max Hmin Hmax;
    [left; split; reflexivity |].
  rewrite !find_loop_step.
  destruct (min <=? max) eqn:E;
    [| right; left; eexists; split; reflexivity].
  apply Z.leb_le in E. pose proof (mid_bounds min max E) as Hm.
  cbv zeta. set (mid := (min + max) / 2) in *.
  rewrite <- (Hkeys mid) by lia.
  assert (Hlog : forall lo hi, min <= lo -> hi <= max ->
            (find_loop fuel m1 target lo hi = None
             /\ find_loop fuel m2 target lo hi = None)
            \/ (exists tr,
                  find_loop fuel m1 target lo hi = Some (tr, Raise KeyError)
                  /\ find_loop fuel m2 target lo hi = Some (tr, Raise KeyError))
            \/ (exists tr pos,
                  lo <= pos <= hi /\ key_at m1 pos = target
                  /\ find_loop fuel m1 target lo hi = Some (tr, found m1 pos)
                  /\ find_loop fuel m2 target lo hi = Some (tr, found m2 pos)) ->
            (logged (PidToIntMap_get_bin_record_reads mid)
               (find_loop fuel m1 target lo hi) = None
             /\ logged (PidToIntMap_get_bin_record_reads mid)
                  (find_loop fuel m2 target lo hi) = None)
            \/ (exists tr,
                  logged (PidToIntMap_get_bin_record_reads mid)
                    (find_loop fuel m1 target lo hi) = Some (tr, Raise KeyError)
                  /\ logged (PidToIntMap_get_bin_record_reads mid)
                       (find_loop fuel m2 target lo hi)
                     = Some (tr, Raise KeyError))
            \/ (exists tr pos,
                  min <= pos <= max /\ key_at m1 pos = target
                  /\ logged (PidToIntMap_get_bin_record_reads mid)
                       (find_loop fuel m1 target lo hi)
                     = Some (tr, found m1 pos)
                  /\ logged (PidToIntMap_get_bin_record_reads mid)
                       (find_loop fuel m2 target lo hi)
                     = Some (tr, found m2 pos))).
  { intros lo hi Hlo Hhi [[-> ->] | [(tr & -> & ->) | (tr & pos & Hp & Hk & -> & ->)]].
    - left. split; reflexivity.
    - right. left. eexists. split; reflexivity.
    - right. right. eexists _, pos. repeat split; try reflexivity;
        try assumption; lia. }
  destruct (bytes_ltb (key_at m1 mid) target) eqn:L1;
    [apply (Hlog (mid + 1) max); try lia; apply IH; lia |].
  destruct (bytes_ltb target (key_at m1 mid)) eqn:L2;
    [apply (Hlog min (mid - 1)); try lia; apply IH; lia |].
  right. right. eexists _, mid. repeat split; try reflexivity; try lia.
  apply bytes_ltb_total; assumption.
Qed.

(** A lookup that returns a node id ended at a record that holds the key,
    and ends at the same record on every map with the same keys. *)
Lemma getitem_position (m : _OnDiskMap) (pid : string) (n : Z) :
  PidToIntMap_getitem m pid = Some (Ok n) ->
  exists pos,
    0 <= pos < length m
    /\ str_to_bytes pid = Ok (key_at m pos)
    /\ unpack_q (val_at m pos) = Ok n
    /\ forall m2,
         length m2 = length m ->
         (forall i, 0 <= i < length m -> key_at m i = key_at m2 i) ->
         PidToIntMap_find m2 pid = Some (found m2 pos).
Proof.
  unfold PidToIntMap_getitem, PidToIntMap_find at 1, PidToIntMap_find_traced.
  destruct (str_to_bytes pid) as [target | e] eqn:Ht;
    [| destruct e; discriminate].
  cbv zeta. intros H.
  destruct (find_loop_sound m target (S (Z.to_nat (length m))) 0 (length m - 1))
    as (tr & r & E0 & Hc); [lia |].
  rewrite E0 in H. simpl in H.
  destruct Hc as [-> | (pos & Hp & Hk & ->)]; [discriminate |].
  assert (Hv : unpack_q (val_at m pos) = Ok n).
  { unfold found in H. destruct (unpack_q (val_at m pos)); [| discriminate].
    simpl in H. congruence. }
  assert (Hfound : found m pos = Ok (n, pos)) by (unfold found; rewrite Hv; reflexivity).
  exists pos. split; [lia |]. split; [congruence |]. split; [exact Hv |].
  intros m2 Hl2 Hk2.
  unfold PidToIntMap_find, PidToIntMap_find_traced. rewrite Ht. cbv zeta.
  rewrite Hl2.
  destruct (find_loop_keys_only m m2 target (length m) Hk2
              (S (Z.to_nat (length m))) 0 (length m - 1))
    as [[E _] | [(tr' & E & _) | (tr' & pos' & Hp' & Hk' & E & E2)]]; try lia;
    rewrite E in E0; try discriminate.
  - injection E0 as _ E0. rewrite Hfound in E0. discriminate.
  - injection E0 as _ E0. rewrite Hfound in E0. unfold found in E0.
    destruct (unpack_q (val_at m pos')); [| discriminate].
    simpl in E0. injection E0 as _ ->. rewrite E2. reflexivity.
Qed.

(** X16. Updating an identifier with the node id its lookup returns
    changes nothing: the call succeeds and the map is byte for byte the map
    before. *)
Theorem update_with_stored_value (m : _OnDiskMap) (pid : string) (n : Z) :
  well_formed PidToIntMap_RECORD_SIZE m ->
  PidToIntMap_getitem m pid = Some (Ok n) ->
  PidToIntMap_setitem m pid n = Some (Ok tt, m).
Proof.
  intros Hw Hg.
  destruct (getitem_position m pid n Hg) as (pos & Hp & Hk & Hv & Hf).
  rewrite (setitem_found m pid n pos (val_at m pos) Hw Hp Hk
             (Hf m eq_refl (fun _ _ => eq_refl)) (pack_unpack_q _ _ Hv)).
  destruct Hw as (HR & Hs & Hl & H0). sizes.
  rewrite val_at_slice, mm_slice_in by lia.
  replace (Z.to_nat (pos * 30 + 22 + 8 - (pos * 30 + 22)))
    with (Z.to_nat (pos * 30 + 22 + 8) - Z.to_nat (pos * 30 + 22))%nat by lia.
  rewrite <- split3 by lia. rewrite set_mm_same. reflexivity.
Qed.

Lemma assign_twice (mm : bytes) (a : nat) (v1 v2 : bytes) :
  (a + List.length v1 <= List.length mm)%nat ->
  List.length v2 = List.length v1 ->
  firstn a (firstn a mm ++ v1 ++ skipn (a + List.length v1) mm)
  ++ v2
  ++ skipn (a + List.length v1)
       (firstn a mm ++ v1 ++ skipn (a + List.length v1) mm)
  = firstn a mm ++ v2 ++ skipn (a + List.length v1) mm.
Proof.
  intros Hle Hl.
  assert (La : List.length (firstn a mm) = a) by (rewrite length_firstn; lia).
  f_equal; [| f_equal].
  - rewrite firstn_app, La, Nat.sub_diag. simpl.
    rewrite app_nil_r. rewrite firstn_all2 by lia. reflexivity.
  - rewrite skipn_app, La, skipn_all2 by lia. simpl.
    replace (a + List.length v1 - a)%nat with (List.length v1) by lia.
    rewrite skipn_app, Nat.sub_diag, skipn_all2 by lia. reflexivity.
Qed.

(** X17. An update and the lookups after it, whatever the order of the
    records: when the lookup of an identifier returns a node id, its update
    with a 64-bit node id succeeds and keeps the map well formed; the
    lookup of the identifier then returns the new node id; the lookup of
    every identifier with another encoding returns what it returned before;
    and a second update of the identifier gives the map that this update
    alone gives on the first map. *)
Theorem update_then_lookup (m : _OnDiskMap) (pid : string) (n b : Z) :
  well_formed PidToIntMap_RECORD_SIZE m ->
  PidToIntMap_getitem m pid = Some (Ok n) ->
  - 2 ^ 63 <= b < 2 ^ 63 ->
  exists m',
    PidToIntMap_setitem m pid b = Some (Ok tt, m')
    /\ well_formed PidToIntMap_RECORD_SIZE m'
    /\ PidToIntMap_getitem m' pid = Some (Ok b)
    /\ (forall pid', str_to_bytes pid' <> str_to_bytes pid ->
          PidToIntMap_getitem m' pid' = PidToIntMap_getitem m pid')
    /\ (forall c, - 2 ^ 63 <= c < 2 ^ 63 ->
          PidToIntMap_setitem m' pid c = PidToIntMap_setitem m pid c).
Proof.
  intros Hw Hg Hb.
  destruct (getitem_position m pid n Hg) as (pos & Hp & Hk & Hv & Hf).
  assert (Hpack : forall c, - 2 ^ 63 <= c < 2 ^ 63 ->
            exists v, pack_q c = Ok v /\ len v = 8).
  { intros c Hc. destruct (pack_q c) as [v |] eqn:Hq.
    - exists v. split; [reflexivity | exact (pack_q_len _ _ Hq)].
    - exfalso. revert Hq. unfold pack_q.
      destruct (- 2 ^ 63 <=? c) eqn:E1; [| apply Z.leb_gt in E1; lia].
      destruct (c <? 2 ^ 63) eqn:E2; [discriminate | apply Z.ltb_ge in E2; lia]. }
  destruct (Hpack b Hb) as (vb & Hvb & Lvb).
  pose proof (setitem_found m pid b pos vb Hw Hp Hk
                (Hf m eq_refl (fun _ _ => eq_refl)) Hvb) as Hset.
  set (mm' := firstn (Z.to_nat (pos * 30 + 22)) (mm m) ++ vb
              ++ skipn (Z.to_nat (pos * 30 + 22 + 8)) (mm m)) in *.
  assert (Ha : mm_assign (mm m) (pos * 30 + 22) (pos * 30 + 22 + 8) vb = Ok mm').
  { destruct Hw as (HR & Hs & Hl & H0). sizes. apply mm_assign_in; lia. }
  destruct (assign_value_frame m pos vb mm' Hw Hp Ha) as (Fk & Fv & Fp).
  assert (Hw' : well_formed PidToIntMap_RECORD_SIZE (set_mm m mm')).
  { destruct Hw as (HR & Hs & Hl & H0). unfold well_formed. simpl.
    rewrite (mm_assign_len _ _ _ _ _ Ha). repeat split; assumption. }
  assert (Hf' : PidToIntMap_find (set_mm m mm') pid
                = Some (found (set_mm m mm') pos)).
  { apply Hf; [reflexivity |]. intros i Hi. symmetry. apply Fk. exact Hi. }
  exists (set_mm m mm'). split; [exact Hset |]. split; [exact Hw' |].
  split; [| split].
  - unfold PidToIntMap_getitem. rewrite Hf'. unfold found.
    rewrite Fp, (unpack_pack_q _ _ Hvb). reflexivity.
  - intros pid' Hne.
    destruct (str_to_bytes pid') as [t' | e] eqn:Ht'.
    + unfold PidToIntMap_getitem, PidToIntMap_find, PidToIntMap_find_traced.
      rewrite Ht'. cbv zeta. simpl length.
      rewrite (find_loop_values_irrelevant (set_mm m mm') m t' (length m));
        try reflexivity; try lia.
      * intros i Hi. apply Fk. exact Hi.
      * intros i Hi Hki. apply Fv; [exact Hi |]. intros ->.
        apply Hne. rewrite Hk. rewrite Fk in Hki by exact Hi. congruence.
    + rewrite !(getitem_raise _ pid' e) by exact Ht'. reflexivity.
  - intros c Hc. destruct (Hpack c Hc) as (vc & Hvc & Lvc).
    assert (Hk' : str_to_bytes pid = Ok (key_at (set_mm m mm') pos))
      by (rewrite Fk by exact Hp; exact Hk).
    rewrite (setitem_found (set_mm m mm') pid c pos vc Hw' Hp Hk' Hf' Hvc).
    rewrite (setitem_found m pid c pos vc Hw Hp Hk
               (Hf m eq_refl (fun _ _ => eq_refl)) Hvc).
    do 2 f_equal. unfold set_mm. simpl. f_equal.
    destruct Hw as (HR & Hs & Hl & H0). sizes. unfold mm'.
    replace (Z.to_nat (pos * 30 + 22 + 8))
      with (Z.to_nat (pos * 30 + 22) + List.length vb)%nat
      by (unfold len in Lvb; lia).
    apply assign_twice; unfold len in *; lia.
Qed.

End Pid.

(** * Concrete runs

    The examples run on the identifier library of [Identifiers]. *)

Local Abbreviation parse := Identifiers.parse_persistent_identifier.
Local Abbreviation show := Identifiers.PersistentId_str.

(** Three identifiers whose keys are in the order [A < B < C], one more that
    is in no index below, and a text with a type the library does not
    know. *)
Definition pid_A : string :=
  "swh:1:cnt:0000000000000000000000000000000000000001".
Definition pid_B : string :=
  "swh:1:dir:0000000000000000000000000000000000000002".
Definition pid_C : string :=
  "swh:1:rev:0000000000000000000000000000000000000003".
Definition pid_D : string :=
  "swh:1:snp:0000000000000000000000000000000000000004".
Definition pid_xyz : string :=
  "swh:1:xyz:0000000000000000000000000000000000000001".

Definition key_of (pid : string) : bytes :=
  match str_to_bytes parse pid with
  | Ok k => k
  | Raise _ => []
  end.

(** The forward index of [A -> 0, B -> 1, C -> 2], written in key order, and
    the same with another node id for [B]. *)
Definition recs_ABC : list (string * Z) := [(pid_A, 0); (pid_B, 1); (pid_C, 2)].

Definition forward_file (recs : list (string * Z)) : bytes :=
  snd (PidToIntMap_write_records parse [] recs).

Definition forward_map (recs : list (string * Z)) : _OnDiskMap :=
  let f := forward_file recs in
  mkOnDiskMap PidToIntMap_RECORD_SIZE (len f) (len f / PidToIntMap_RECORD_SIZE) f.

Definition forward_ABC : _OnDiskMap := forward_map recs_ABC.

Definition forward_ABC' : _OnDiskMap :=
  forward_map [(pid_A, 0); (pid_B, 77); (pid_C, 2)].

(** The reverse index of [0 -> A, 1 -> B, 2 -> C]. *)
Definition reverse_ABC : _OnDiskMap :=
  let f := key_of pid_A ++ key_of pid_B ++ key_of pid_C in
  mkOnDiskMap IntToPidMap_RECORD_SIZE (len f) (len f / IntToPidMap_RECORD_SIZE) f.

(** A reverse index of two records as [mode = 'wb'] creates it: null bytes. *)
Definition reverse_new : _OnDiskMap :=
  mkOnDiskMap IntToPidMap_RECORD_SIZE 44 2 (repeat x00 44).

(** What the identifier library accepts: the short type names and the
    scheme version 1 only; it prints what it parsed. *)
Example identifiers_accepted :
  parse pid_A
  = Ok (mkPersistentId 1 "content" "0000000000000000000000000000000000000001")
  /\ show (mkPersistentId 1 "content" "0000000000000000000000000000000000000001")
     = pid_A
  /\ parse "swh:1:content:0000000000000000000000000000000000000001"
     = Raise Identifiers.ValidationError
  /\ parse "swh:2:cnt:0000000000000000000000000000000000000001"
     = Raise Identifiers.ValidationError
  /\ parse pid_xyz = Raise Identifiers.ValidationError
  /\ parse "swh:1:cnt:01" = Raise Identifiers.ValidationError.
Proof. repeat split; vm_compute; reflexivity. Qed.

Example forward_ABC_opened :
  PidToIntMap_init (Some (forward_file recs_ABC)) "rb" None = Ok forward_ABC.
Proof. vm_compute. reflexivity. Qed.

Example reverse_new_created :
  IntToPidMap_init None "wb" (Some 2) = Ok reverse_new.
Proof. vm_compute. reflexivity. Qed.

Example end_to_end :
  PidToIntMap_getitem parse forward_ABC pid_B = Some (Ok 1)
  /\ IntToPidMap_getitem show 1 reverse_ABC 2 = Ok pid_C
  /\ IntToPidMap_getitem show 1 reverse_ABC (- 1) = Ok pid_C.
Proof. repeat split; vm_compute; reflexivity. Qed.

Lemma forward_ABC_well_formed : well_formed PidToIntMap_RECORD_SIZE forward_ABC.
Proof. repeat split; vm_compute; congruence. Defined.

Lemma reverse_ABC_well_formed : well_formed IntToPidMap_RECORD_SIZE reverse_ABC.
Proof. repeat split; vm_compute; congruence. Defined.

(** ** C1 *)

(** The round trip of an identifier of the default version. *)
Example round_trip_A :
  (b <- str_to_bytes parse pid_A ;; bytes_to_str show Identifiers.PID_VERSION b)
  = Ok pid_A.
Proof.
  assert (Hb : str_to_bytes parse pid_A = Ok (key_of pid_A))
    by (vm_compute; reflexivity).
  rewrite Hb. unfold bind.
  apply (bytes_to_str_str_to_bytes parse show Identifiers.PID_VERSION pid_A
           (mkPersistentId 1 "content" "0000000000000000000000000000000000000001")
           (repeat x00 19 ++ [x01])); vm_compute; reflexivity.
Qed.


(** ** C2 *)

Lemma lookup_sorted_index_witness :
  PidToIntMap_getitem parse forward_ABC pid_B = Some (Ok 1)
  /\ PidToIntMap_getitem parse forward_ABC pid_D = Some (Raise KeyError).
Proof.
  destruct (lookup_sorted_index parse recs_ABC
              [key_of pid_A; key_of pid_B; key_of pid_C]
              (forward_file recs_ABC) forward_ABC)
    as [Hin Hout]; try (vm_compute; reflexivity).
  split.
  - apply Hin. right. left. reflexivity.
  - apply (Hout pid_D (key_of pid_D)); [vm_compute; reflexivity |].
    vm_compute. intros [H | [H | [H | []]]]; discriminate H.
Defined.

(** ** C3 *)

Lemma update_frame_witness :
  exists r m',
    PidToIntMap_setitem parse forward_ABC pid_B 77 = Some (r, m')
    /\ length m' = length forward_ABC
    /\ (forall i, 0 <= i < length forward_ABC -> key_at forward_ABC i <> key_of pid_B ->
          val_at m' i = val_at forward_ABC i).
Proof.
  destruct (update_frame parse forward_ABC pid_B 77 (key_of pid_B)
              forward_ABC_well_formed eq_refl)
    as (r & m' & Hset & Hl & _ & _ & _ & Hv & _).
  exists r, m'. repeat split; assumption.
Defined.

Example update_B :
  PidToIntMap_setitem parse forward_ABC pid_B 77 = Some (Ok tt, forward_ABC')
  /\ PidToIntMap_setitem parse forward_ABC pid_D 77
     = Some (Raise KeyError, forward_ABC).
Proof. split; vm_compute; reflexivity. Qed.

(** ** C4 *)

Lemma reverse_negative_addressing_witness :
  IntToPidMap_getitem show 1 reverse_ABC (length reverse_ABC - 1)
  = IntToPidMap_getitem show 1 reverse_ABC (- 1)
  /\ IntToPidMap_getitem show 1 reverse_ABC (- (length reverse_ABC + 1))
     = Raise IndexError.
Proof.
  destruct (reverse_negative_addressing show 1 reverse_ABC)
    as (H1 & _ & H3 & _); [vm_compute; reflexivity |].
  split; assumption.
Defined.

(** ** C5 *)

(** The failing inputs of C5: the parser refuses a text that is no
    identifier, and one with a type it does not know, with
    [ValidationError]; the lookup raises [ValidationError], not
    [ValueError]. The lookup of [pid_D], which is encoded and is not in the
    index, raises [KeyError]. *)
Lemma lookup_error_classes_witness :
  parse "not an identifier" = Raise Identifiers.ValidationError
  /\ PidToIntMap_getitem parse forward_ABC "not an identifier"
     = Some (Raise Identifiers.ValidationError)
  /\ PidToIntMap_getitem parse forward_ABC "not an identifier"
     <> Some (Raise ValueError)
  /\ PidToIntMap_getitem parse forward_ABC pid_xyz
     = Some (Raise Identifiers.ValidationError)
  /\ PidToIntMap_getitem parse forward_ABC pid_xyz <> Some (Raise ValueError)
  /\ PidToIntMap_getitem parse forward_ABC pid_D = Some (Raise KeyError).
Proof.
  destruct (lookup_error_classes parse forward_ABC "not an identifier")
    as (H1 & _).
  destruct (H1 Identifiers.ValidationError eq_refl) as (_ & Hg1 & Hn1).
  destruct (lookup_error_classes parse forward_ABC pid_xyz) as (H2 & _).
  destruct (H2 Identifiers.ValidationError eq_refl) as (_ & Hg2 & Hn2).
  destruct (lookup_error_classes parse forward_ABC pid_D) as (_ & _ & H3).
  split; [reflexivity |]. split; [exact Hg1 |].
  split; [apply Hn1; discriminate |]. split; [exact Hg2 |].
  split; [apply Hn2; discriminate |].
  apply (H3 (key_of pid_D)); [vm_compute; reflexivity |].
  intros pos Hp. change (length forward_ABC) with 3 in Hp.
  assert (Hc : pos = 0 \/ pos = 1 \/ pos = 2) by lia.
  destruct Hc as [-> | [-> | ->]]; vm_compute; discriminate.
Defined.

(** ** C6 *)

(** C6, as stated, fails: the lookup of [C] in the index of [A], [B], [C]
    probes the record of [B], whose key is below the target, and reads the
    slice [52, 60) of the buffer, the value bytes of this record, before it
    goes on to the record of [C]. *)
Lemma lookup_reads_value_of_other_record :
  PidToIntMap_find_traced parse forward_ABC pid_C
  = Some ([(30, 52); (52, 60); (60, 82); (82, 90)], Ok (2, 2))
  /\ bytes_ltb (key_at forward_ABC 1) (key_of pid_C) = true
  /\ PidToIntMap_get_bin_record_reads 1 = [(30, 52); (52, 60)].
Proof. repeat split; vm_compute; reflexivity. Qed.

Lemma lookup_ignores_other_values_witness :
  PidToIntMap_find_traced parse forward_ABC pid_C
  = PidToIntMap_find_traced parse forward_ABC' pid_C
  /\ PidToIntMap_getitem parse forward_ABC pid_C
     = PidToIntMap_getitem parse forward_ABC' pid_C.
Proof.
  refine ((fun H => conj (proj1 H) (proj1 (proj2 H))) _).
  apply (lookup_ignores_other_values parse forward_ABC forward_ABC' pid_C
           (key_of pid_C)); try (vm_compute; reflexivity).
  - intros i Hi. change (length forward_ABC) with 3 in Hi.
    assert (Hc : i = 0 \/ i = 1 \/ i = 2) by lia.
    destruct Hc as [-> | [-> | ->]]; vm_compute; reflexivity.
  - intros i Hi. change (length forward_ABC) with 3 in Hi.
    assert (Hc : i = 0 \/ i = 1 \/ i = 2) by lia.
    destruct Hc as [-> | [-> | ->]]; vm_compute; intros H;
      try reflexivity; discriminate H.
Defined.

(** ** C7 *)

Lemma unsorted_index_misleads_witness :
  exists f m,
    PidToIntMap_write_records parse [] [(pid_B, 0); (pid_A, 1)] = (Ok tt, f)
    /\ PidToIntMap_init (Some f) "rb" None = Ok m
    /\ ~ sorted_keys m
    /\ key_at m 1 = key_of pid_A /\ unpack_q (val_at m 1) = Ok 1
    /\ PidToIntMap_getitem parse m pid_A = Some (Raise KeyError).
Proof.
  apply (unsorted_index_misleads parse pid_A pid_B (key_of pid_A) (key_of pid_B));
    vm_compute; reflexivity.
Defined.

(** ** C8 *)

Lemma open_checks_size_witness :
  _OnDiskMap_init 30 (Some (repeat x00 31)) "rb" None = Raise ValueError
  /\ _OnDiskMap_init 30 (Some (repeat x00 60)) "rb" None
     = Ok (mkOnDiskMap 30 60 2 (repeat x00 60)).
Proof.
  split.
  - destruct (open_checks_size 30 (Some (repeat x00 31)) "rb" None)
      as (_ & H & _); [discriminate |].
    apply (H (repeat x00 31)); [reflexivity | left; reflexivity |].
    vm_compute. discriminate.
  - destruct (open_checks_size 30 (Some (repeat x00 60)) "rb" None)
      as (_ & _ & H); [discriminate |].
    apply (H (repeat x00 60)); [reflexivity | left; reflexivity | |];
      vm_compute; reflexivity.
Defined.

(** ** C9 *)

Lemma reverse_set_out_of_range_witness :
  IntToPidMap_setitem parse reverse_ABC 3 pid_A = (Raise IndexError, reverse_ABC).
Proof.
  destruct (reverse_set_out_of_range parse reverse_ABC 3 pid_A
              reverse_ABC_well_formed)
    as (_ & H & _); [vm_compute; discriminate |].
  apply (H (key_of pid_A)). vm_compute. reflexivity.
Defined.

(** ** C10 *)

(** C10, as stated, fails: the reverse index of two records that
    [mode = 'wb'] creates holds null bytes, the type byte 0 of its first
    record is the value of no [PidType], and the iterator ends with
    [ValueError] before it has yielded anything; so does the iterator of a
    forward index created this way. *)
Lemma iterator_of_new_map_yields_nothing :
  IntToPidMap_init None "wb" (Some 2) = Ok reverse_new
  /\ length reverse_new = 2
  /\ IntToPidMap_iter show 1 reverse_new = ([], Some ValueError)
  /\ (m <- PidToIntMap_init None "wb" (Some 2) ;;
      Ok (length m, PidToIntMap_iter show 1 m))
     = Ok (2, ([], Some ValueError)).
Proof. repeat split; vm_compute; reflexivity. Qed.

Example iterate_ABC :
  PidToIntMap_iter show 1 forward_ABC
  = ([(pid_A, 0); (pid_B, 1); (pid_C, 2)], None)
  /\ IntToPidMap_iter show 1 reverse_ABC
     = ([(0, pid_A); (1, pid_B); (2, pid_C)], None).
Proof. split; vm_compute; reflexivity. Qed.

(** ** Further runs *)

(** A forward index with two records for the key of [B]. *)
Definition forward_ABB : _OnDiskMap :=
  forward_map [(pid_A, 0); (pid_B, 1); (pid_B, 2)].

(** The forward index of [B -> 0, A -> 1], out of key order. *)
Definition forward_BA : _OnDiskMap := forward_map [(pid_B, 0); (pid_A, 1)].

Lemma str_to_bytes_fields_witness :
  len (key_of pid_B) = PID_BIN_SIZE
  /\ unpack_PID (key_of pid_B) = Ok (1, 2, repeat x00 19 ++ [x02]).
Proof.
  destruct (str_to_bytes_fields parse pid_B (key_of pid_B) eq_refl)
    as (Hl & _). split; [exact Hl | vm_compute; reflexivity].
Defined.

Lemma key_order_by_fields_witness : bytes_lt (key_of pid_A) (key_of pid_B).
Proof.
  apply (key_order_by_fields (key_of pid_A) (key_of pid_B) 1 1 1 2
           (repeat x00 19 ++ [x01]) (repeat x00 19 ++ [x02]));
    [vm_compute; reflexivity | vm_compute; reflexivity |].
  right. split; [reflexivity | left; lia].
Defined.

Lemma str_to_bytes_bytes_to_str_witness :
  (s <- bytes_to_str show 1 (x02 :: x01 :: repeat x00 19 ++ [x01]) ;;
   str_to_bytes parse s)
  = Ok (x01 :: x01 :: repeat x00 19 ++ [x01]).
Proof.
  apply (str_to_bytes_bytes_to_str parse show 1 x02 x01
           (repeat x00 19 ++ [x01]) content);
    try (vm_compute; reflexivity). lia.
Defined.

Lemma round_trip_default_version_witness :
  bytes_to_str show 1 (key_of pid_A) = Ok pid_A
  /\ (b' <- str_to_bytes parse pid_A ;; bytes_to_str show 1 b') = Ok pid_A.
Proof.
  apply (round_trip_default_version parse show 1 pid_A
           (mkPersistentId 1 "content" "0000000000000000000000000000000000000001")
           (repeat x00 19 ++ [x01]) (key_of pid_A));
    vm_compute; reflexivity.
Defined.

Lemma create_map_witness :
  exists m,
    _OnDiskMap_init 22 None "wb" (Some 2) = Ok m
    /\ length m = 2 /\ mm m = repeat x00 44.
Proof.
  destruct (create_map 22 2 None) as (m & Hi & _ & Hl & _ & Hn & _);
    [lia | lia |].
  exists m. split; [exact Hi |]. split; [exact Hl |]. exact (Hn eq_refl).
Defined.

Lemma iterate_written_forward_witness :
  PidToIntMap_iter show 1 forward_BA = ([(pid_B, 0); (pid_A, 1)], None).
Proof.
  destruct (iterate_written_forward parse show 1 [(pid_B, 0); (pid_A, 1)]
              (forward_file [(pid_B, 0); (pid_A, 1)]) forward_BA)
    as (_ & _ & H); [vm_compute; reflexivity | vm_compute; reflexivity |].
  apply H. intros pid n k [E | [E | []]] Hk; injection E as <- <-;
    vm_compute in Hk; apply Ok_inj in Hk; subst k; vm_compute; reflexivity.
Defined.

Lemma reverse_written_witness :
  IntToPidMap_getitem show 1 reverse_ABC 1 = Ok pid_B
  /\ length reverse_ABC = 3.
Proof.
  destruct (reverse_written parse show 1 [pid_A; pid_B; pid_C]
              (key_of pid_A ++ key_of pid_B ++ key_of pid_C) reverse_ABC)
    as (Hl & Hg & _); [vm_compute; reflexivity | vm_compute; reflexivity |].
  split; [| exact Hl].
  destruct (Hg 1%nat pid_B eq_refl) as (k & Hk & _ & Hget).
  change (Z.of_nat 1) with 1 in Hget. rewrite Hget.
  vm_compute in Hk. apply Ok_inj in Hk. subst k. vm_compute. reflexivity.
Defined.

Lemma reverse_set_in_range_witness :
  exists m',
    IntToPidMap_setitem parse reverse_ABC 1 pid_D = (Ok tt, m')
    /\ IntToPidMap_getitem show 1 m' 1 = Ok pid_D
    /\ IntToPidMap_getitem show 1 m' 2 = Ok pid_C.
Proof.
  destruct (reverse_set_in_range parse show 1 reverse_ABC 1 pid_D (key_of pid_D)
              reverse_ABC_well_formed)
    as (m' & Hs & _ & _ & Hg & Ho);
    [change (length reverse_ABC) with 3; lia | vm_compute; reflexivity |].
  exists m'. split; [exact Hs |]. split.
  - rewrite Hg. vm_compute. reflexivity.
  - destruct (Ho 2) as [_ H2];
      [change (length reverse_ABC) with 3; lia | discriminate |].
    rewrite H2. vm_compute. reflexivity.
Defined.

Lemma reverse_set_negative_witness :
  IntToPidMap_setitem parse reverse_ABC (- 1) pid_D
  = (Raise IndexError, reverse_ABC)
  /\ IntToPidMap_setitem parse reverse_ABC (- 2) pid_D
     = IntToPidMap_setitem parse reverse_ABC 1 pid_D.
Proof.
  destruct (reverse_set_negative parse reverse_ABC pid_D (key_of pid_D)
              reverse_ABC_well_formed eq_refl) as (H1 & H2 & _).
  split; [exact H1 |].
  apply (H2 2). change (length reverse_ABC) with 3. lia.
Defined.

Lemma lookup_probes_logarithmic_witness :
  exists probes,
    [(30, 52); (52, 60); (60, 82); (82, 90)]
    = flat_map PidToIntMap_get_bin_record_reads probes
    /\ len probes <= Z.log2 (length forward_ABC) + 1.
Proof.
  destruct (lookup_probes_logarithmic parse forward_ABC pid_C
              [(30, 52); (52, 60); (60, 82); (82, 90)] (Ok (2, 2)))
    as (probes & Ht & _ & Hb);
    [vm_compute; reflexivity | vm_compute; reflexivity |].
  exists probes. split; assumption.
Defined.

Lemma lookup_returns_stored_value_witness :
  exists target pos,
    str_to_bytes parse pid_A = Ok target
    /\ 0 <= pos < length forward_ABC
    /\ key_at forward_ABC pos = target
    /\ unpack_q (val_at forward_ABC pos) = Ok 0.
Proof.
  apply (lookup_returns_stored_value parse forward_ABC pid_A 0).
  vm_compute. reflexivity.
Defined.

Lemma forward_ABB_well_formed : well_formed PidToIntMap_RECORD_SIZE forward_ABB.
Proof. repeat split; vm_compute; congruence. Defined.

Lemma lookup_sorted_with_duplicates_witness :
  exists pos n,
    PidToIntMap_getitem parse forward_ABB pid_B = Some (Ok n)
    /\ 0 <= pos < length forward_ABB
    /\ key_at forward_ABB pos = key_of pid_B
    /\ unpack_q (val_at forward_ABB pos) = Ok n.
Proof.
  apply (lookup_sorted_with_duplicates parse forward_ABB pid_B (key_of pid_B) 2
           forward_ABB_well_formed); try (vm_compute; reflexivity).
  - intros i j Hi Hij Hj. change (length forward_ABB) with 3 in Hj.
    assert (Hc : (i = 0 /\ j = 1) \/ (i = 0 /\ j = 2) \/ (i = 1 /\ j = 2))
      by lia.
    destruct Hc as [[-> ->] | [[-> ->] | [-> ->]]]; vm_compute; reflexivity.
  - change (length forward_ABB) with 3. lia.
Defined.

Lemma update_with_stored_value_witness :
  PidToIntMap_setitem parse forward_ABC pid_B 1 = Some (Ok tt, forward_ABC).
Proof.
  apply (update_with_stored_value parse forward_ABC pid_B 1
           forward_ABC_well_formed).
  vm_compute. reflexivity.
Defined.

Lemma update_then_lookup_witness :
  exists m',
    PidToIntMap_setitem parse forward_ABC pid_A 77 = Some (Ok tt, m')
    /\ PidToIntMap_getitem parse m' pid_A = Some (Ok 77)
    /\ PidToIntMap_getitem parse m' pid_B
       = PidToIntMap_getitem parse forward_ABC pid_B.
Proof.
  destruct (update_then_lookup parse forward_ABC pid_A 0 77
              forward_ABC_well_formed)
    as (m' & Hs & _ & Hg & Ho & _); [vm_compute; reflexivity | lia |].
  exists m'. split; [exact Hs |]. split; [exact Hg |].
  apply Ho. vm_compute. discriminate.
Defined.
